(** * logger.h: a shallow embedding and its verified properties

    The header defines reference-counted handles ([Ref<T>] over
    [RefCounted]), the severity-name lookup ([sevname]), the synchronous
    sinks ([MultiLogger], [FilteringLogger], [MemLogger], [FileLogger])
    and the asynchronous sink ([AsyncLogger]).  Each part is embedded
    below in a module of its own, followed by the properties proved
    about it. *)

From Stdlib Require Import ZArith Lia List Bool String Ascii DecimalString.
From Stdlib Require Import Floats.PrimFloat.
From stdpp Require Import gmap strings list fin_maps.

Local Open Scope Z_scope.

(** ** Machine integers *)

(** [int] is 32 bits wide.  [to_int] is the conversion of an integer
    value to [int] (two's complement wrap-around), as performed by
    [int(q.size())] and by arithmetic on [std::atomic_int]. *)
Definition INT_MIN : Z := - 2 ^ 31.
Definition INT_MAX : Z := 2 ^ 31 - 1.

Definition to_int (z : Z) : Z := (z + 2 ^ 31) mod 2 ^ 32 - 2 ^ 31.

(** ** Entry *)

(** [struct Entry { double time; int severity; std::string context;
    std::string message; }] *)
Record Entry := mkEntry {
  time : float;
  severity : Z;
  context : string;
  message : string
}.

(** ** Severity names *)

Module Severity.

(** [severities()]: the static [std::map<int, std::string>]. *)
Definition severities : gmap Z string :=
  <[0 := "info"%string]>
  (<[100 := "warning"%string]>
  (<[200 := "error"%string]>
  (<[1000 := "fatal error"%string]> ∅))).

(** What [stringf("%i", n)] prints. *)
Definition decimal (n : Z) : string := NilZero.string_of_int (Z.to_int n).

(** [sevname]: [find(severity)], then [find(severity/100*100)] where
    [/] is C++ integer division (truncation towards zero, [Z.quot]),
    then [stringf("severity=%i", severity)]. *)
Definition sevname (severity : Z) : string :=
  let it := severities !! severity in
  let it := match it with
            | None => severities !! (Z.quot severity 100 * 100)
            | Some _ => it
            end in
  match it with
  | Some name => name
  | None => ("severity=" ++ decimal severity)%string
  end.

(** The lookup as the specification words it: the table
    [{0:info, 100:warning, 200:error, 1000:fatal}], an exact match
    first, then the severity rounded down to the nearest hundred
    (floor, [Z.div]), then [severity=<n>]. *)
Definition spec_table : gmap Z string :=
  <[0 := "info"%string]>
  (<[100 := "warning"%string]>
  (<[200 := "error"%string]>
  (<[1000 := "fatal"%string]> ∅))).

Definition sevname_spec (n : Z) : string :=
  match spec_table !! n with
  | Some name => name
  | None =>
      match spec_table !! (n / 100 * 100) with
      | Some name => name
      | None => ("severity=" ++ decimal n)%string
      end
  end.

End Severity.

(** ** MemLogger *)

Module Mem.

(** The loop [while (max_size != -1 && int(q.size()) > max_size)
    q.pop_front();].  Every iteration tests the condition on the current
    deque and pops its head; [pop_front] on an empty deque is undefined
    behaviour, rendered as [None]. *)
Definition evict_cond (max_size : Z) (q : list Entry) : bool :=
  negb (max_size =? -1) && (to_int (Z.of_nat (length q)) >? max_size).

Fixpoint evict (max_size : Z) (q : list Entry) : option (list Entry) :=
  match q with
  | [] => if evict_cond max_size [] then None else Some []
  | x :: q' => if evict_cond max_size (x :: q') then evict max_size q'
               else Some (x :: q')
  end.

(** [MemLogger::log]: [q.push_back(e)] then the eviction loop. *)
Definition log (max_size : Z) (q : list Entry) (e : Entry)
  : option (list Entry) :=
  evict max_size (q ++ [e]).

(** Successive [log] calls on one [MemLogger]. *)
Fixpoint logs (max_size : Z) (q : list Entry) (es : list Entry)
  : option (list Entry) :=
  match es with
  | [] => Some q
  | e :: es' =>
      match log max_size q e with
      | Some q' => logs max_size q' es'
      | None => None
      end
  end.

End Mem.


(** ** The synchronous sinks *)

Module Sinks.

(** Sinks live on the heap and refer to their downstream sinks through
    [Ref<Logger>] handles; a handle is rendered as the address of its
    referent, so that a sink shared by several holders is one object.
    An address without an object (a null or dangling handle) makes
    [x->log(e)] undefined. *)
Abbreviation addr := nat.

Definition Formatter := Entry -> string.
Definition Filter := Entry -> bool.

(** The subclasses of [Logger] whose [log] runs on the caller's thread,
    each with its data members.  [FileLogger::file] is the text written
    to the stream so far. *)
Inductive Logger :=
| MultiLogger (Ls : list addr)
| FilteringLogger (L : addr) (f : Filter)
| MemLogger (q : list Entry) (max_size : Z)
| FileLogger (file : string) (formatter : Formatter) (autoclose : bool).

(** An invocation of [log]: the sink it is invoked on and its argument. *)
Definition call : Type := addr * Entry.

(** The result of a [log] call: the heap it leaves and the [log]
    invocations it made, itself included, in the order they started. *)
Definition result : Type := gmap addr Logger * list call.

Definition entered (c : call) (r : result) : result := (r.1, c :: r.2).

(** [for (auto& x : Ls) x->log(e);] with [dispatch] the virtual call. *)
Fixpoint log_each (dispatch : addr -> Entry -> gmap addr Logger -> option result)
    (Ls : list addr) (e : Entry) (st : gmap addr Logger) : option result :=
  match Ls with
  | [] => Some (st, [])
  | x :: Ls' =>
      match dispatch x e st with
      | None => None
      | Some (st1, t1) =>
          match log_each dispatch Ls' e st1 with
          | None => None
          | Some (st2, t2) => Some (st2, t1 ++ t2)
          end
      end
  end.

(** [a->log(e)] on the heap [st]: virtual dispatch on the object at [a],
    then the body of its class's [log].  [fuel] bounds the nesting depth
    of the calls; [None] is an exhausted bound or undefined behaviour. *)
Fixpoint log (fuel : nat) (a : addr) (e : Entry) (st : gmap addr Logger)
  : option result :=
  match fuel with
  | O => None
  | S n =>
      match st !! a with
      | None => None
      | Some (MultiLogger Ls) =>
          entered (a, e) <$> log_each (log n) Ls e st
      | Some (FilteringLogger L f) =>
          if f e then entered (a, e) <$> log n L e st
          else Some (st, [(a, e)])
      | Some (MemLogger q max_size) =>
          match Mem.log max_size q e with
          | None => None
          | Some q' => Some (<[a := MemLogger q' max_size]> st, [(a, e)])
          end
      | Some (FileLogger file formatter autoclose) =>
          let line := (formatter e ++ String "010"%char EmptyString)%string in
          Some (<[a := FileLogger (file ++ line) formatter autoclose]> st,
                [(a, e)])
      end
  end.

(** [severityFilter]: the predicate of the lambda,
    [e.severity >= low && (high == -1 || e.severity <= high)]. *)
Definition severity_in_range (low high : Z) : Filter :=
  fun e => (severity e >=? low) && ((high =? -1) || (severity e <=? high)).

(** [severityFilter(L, low, high)]: a [new FilteringLogger] over [L],
    placed at an unused address, which is returned with the heap. *)
Definition severityFilter (st : gmap addr Logger) (L : addr) (low high : Z)
  : gmap addr Logger * addr :=
  let a := fresh (dom st) in
  (<[a := FilteringLogger L (severity_in_range low high)]> st, a).

(** [default_formatter()], with [ctime_r] (less its newline) taken as
    given. *)
Definition default_formatter (ctime : float -> string) : Formatter :=
  fun e => (ctime (time e) ++ " - " ++ Severity.sevname (severity e)
            ++ ": (" ++ context e ++ ") -- " ++ message e)%string.

(** The fan-out as the specification words it: [accept(r)] is invoked on
    each downstream sink in order, each invocation starting from the
    heap the previous one left. *)
Inductive fanout (dispatch : addr -> Entry -> gmap addr Logger -> option result)
    (e : Entry) : list addr -> gmap addr Logger -> gmap addr Logger
                  -> list call -> Prop :=
| fanout_nil st : fanout dispatch e [] st st []
| fanout_cons x Ls st st1 t1 st2 t2 :
    dispatch x e st = Some (st1, t1) ->
    fanout dispatch e Ls st1 st2 t2 ->
    fanout dispatch e (x :: Ls) st st2 (t1 ++ t2).

(** [n] successive [MemLogger::log] calls with the same record. *)
Fixpoint mem_log_times (n : nat) (max_size : Z) (q : list Entry) (e : Entry)
  : option (list Entry) :=
  match n with
  | O => Some q
  | S n' =>
      match Mem.log max_size q e with
      | None => None
      | Some q' => mem_log_times n' max_size q' e
      end
  end.

End Sinks.

(** ** Reference-counted handles *)

Module Refcount.

(** Objects derived from [RefCounted] are identified by their address,
    [Ref<T>] variables (on the stack, in a global, in a member or in a
    closure) by a name. *)
Abbreviation addr := nat.
Abbreviation hid := nat.

(** The heap: the [refcount] of every live object, and the pointer [p]
    of every live handle ([None] is [nullptr]). *)
Record heap := mkHeap {
  objs : gmap addr Z;
  refs : gmap hid (option addr)
}.

Definition empty_heap : heap := mkHeap ∅ ∅.

(** [if (p) p->refcount++;].  Touching an object that is not live is
    undefined ([None]). *)
Definition incref (p : option addr) (os : gmap addr Z)
  : option (gmap addr Z) :=
  match p with
  | None => Some os
  | Some a =>
      match os !! a with
      | Some rc => Some (<[a := to_int (rc + 1)]> os)
      | None => None
      end
  end.

(** [if (p && --p->refcount==0) delete p;] *)
Definition decref (p : option addr) (os : gmap addr Z)
  : option (gmap addr Z) :=
  match p with
  | None => Some os
  | Some a =>
      match os !! a with
      | Some rc =>
          let rc' := to_int (rc - 1) in
          if rc' =? 0 then Some (delete a os) else Some (<[a := rc']> os)
      | None => None
      end
  end.

(** [new T]: [RefCounted() : refcount(0)]. *)
Definition new_object (a : addr) (h : heap) : option heap :=
  match objs h !! a with
  | None => Some (mkHeap (<[a := 0]> (objs h)) (refs h))
  | Some _ => None
  end.

(** [Ref(U *p) : p(p) { if (p) p->refcount++; }], constructing the
    handle [x]. *)
Definition Ref_ctor (x : hid) (p : option addr) (h : heap) : option heap :=
  match refs h !! x with
  | Some _ => None
  | None =>
      os ← incref p (objs h);
      Some (mkHeap os (<[x := p]> (refs h)))
  end.

(** [Ref(const Ref& other) : p(other.p) { if (p) p->refcount++; }] *)
Definition Ref_copy (x other : hid) (h : heap) : option heap :=
  p ← refs h !! other;
  Ref_ctor x p h.

(** [void swap(Ref& other) { std::swap(p, other.p); }] *)
Definition Ref_swap (x y : hid) (h : heap) : option heap :=
  px ← refs h !! x;
  py ← refs h !! y;
  Some (mkHeap (objs h) (<[x := py]> (<[y := px]> (refs h)))).

(** [~Ref() { if (p && --p->refcount==0) delete p; }] *)
Definition Ref_dtor (x : hid) (h : heap) : option heap :=
  p ← refs h !! x;
  os ← decref p (objs h);
  Some (mkHeap os (delete x (refs h))).

(** [Ref& operator=(U *u) { Ref(u).swap( *this ); return *this; }]: a
    temporary handle is constructed, swapped with [x] and destroyed. *)
Definition Ref_assign_ptr (x : hid) (u : option addr) (h : heap)
  : option heap :=
  let temp := fresh (dom (refs h)) in
  h1 ← Ref_ctor temp u h;
  h2 ← Ref_swap temp x h1;
  Ref_dtor temp h2.

(** [Ref& operator=(const Ref& other) { swap(Ref(other.p)); return
    *this; }] *)
Definition Ref_assign (x other : hid) (h : heap) : option heap :=
  p ← refs h !! other;
  let temp := fresh (dom (refs h)) in
  h1 ← Ref_ctor temp p h;
  h2 ← Ref_swap x temp h1;
  Ref_dtor temp h2.

(** [Ref& operator=(std::nullptr_t) { if (p && --p->refcount==0) delete
    p; p = nullptr; return *this; }] *)
Definition Ref_assign_null (x : hid) (h : heap) : option heap :=
  p ← refs h !! x;
  os ← decref p (objs h);
  Some (mkHeap os (<[x := None]> (refs h))).

(** The operations a program performs on handles. *)
Inductive op :=
| New (a : addr)
| Ctor (x : hid) (p : option addr)
| Copy (x other : hid)
| Swap (x y : hid)
| Assign (x other : hid)
| AssignPtr (x : hid) (u : option addr)
| AssignNull (x : hid)
| Dtor (x : hid).

Definition apply_op (o : op) (h : heap) : option heap :=
  match o with
  | New a => new_object a h
  | Ctor x p => Ref_ctor x p h
  | Copy x other => Ref_copy x other h
  | Swap x y => Ref_swap x y h
  | Assign x other => Ref_assign x other h
  | AssignPtr x u => Ref_assign_ptr x u h
  | AssignNull x => Ref_assign_null x h
  | Dtor x => Ref_dtor x h
  end.

Fixpoint run (ops : list op) (h : heap) : option heap :=
  match ops with
  | [] => Some h
  | o :: ops' =>
      match apply_op o h with
      | Some h' => run ops' h'
      | None => None
      end
  end.

(** The number of live handles that point to [a]. *)
Definition holders (rs : gmap hid (option addr)) (a : addr) : nat :=
  size (filter (fun kv => kv.2 = Some a) rs).

End Refcount.

(** ** AsyncLogger *)

Module Async.

(** One [AsyncLogger] object and the threads that run its code, as an
    interleaving of statements.  A thread is named by its index in
    [threads]. *)
Abbreviation tid := nat.

(** The statement a thread is about to execute.  [C_*] are the
    statements of [AsyncLogger::log(e)] on a calling thread, [W_*] those
    of the lambda run by the worker thread. *)
Inductive pc :=
| C_lock (e : Entry)      (* std::lock_guard<std::mutex> lock(m); *)
| C_push (e : Entry)      (* q.push_back(e); *)
| C_test                  (* if (q.size() == 1) *)
| C_joinable              (* if (worker.joinable()) *)
| C_join                  (* worker.join(); *)
| C_me                    (* Ref<Logger> me(this); *)
| C_capture               (* [me, this](){...}: the closure copies me *)
| C_spawn                 (* worker = std::thread(closure); *)
| C_temp_dtor             (* the temporary closure is destroyed *)
| C_me_dtor               (* end of the block: me is destroyed *)
| C_unlock                (* end of log: the lock_guard unlocks m *)
| C_done
| W_lock                  (* m.lock(); *)
| W_test                  (* while (q.size() > 0) *)
| W_front                 (* Entry& e = q.front(); *)
| W_unlock (e : Entry)    (* m.unlock(); *)
| W_log (e : Entry)       (* L->log(e): the call *)
| W_in_log (e : Entry)    (* L->log(e): the return *)
| W_relock                (* m.lock(); *)
| W_pop                   (* q.pop_front(); *)
| W_detach                (* worker.detach(); *)
| W_unlock_end            (* m.unlock(); *)
| W_release               (* the thread's closure, hence its me, is destroyed *)
| W_done.

(** The data members [q], [m] (its owner), [worker] (the thread it
    represents while joinable) and the inherited [refcount]; whether the
    object has been deleted; the threads; and three records of the
    history: the handles held by the rest of the program ([ext]), the
    [push_back]s ([enq]) and the calls of [L->log] with the thread that
    made them ([out]). *)
Record state := mkState {
  q : list Entry;
  m : option tid;
  worker : option tid;
  refcount : Z;
  alive : bool;
  threads : list pc;
  ext : nat;
  enq : list Entry;
  out : list (tid * Entry)
}.

Definition set_q (v : list Entry) (s : state) : state :=
  mkState v (m s) (worker s) (refcount s) (alive s) (threads s) (ext s)
          (enq s) (out s).
Definition set_m (v : option tid) (s : state) : state :=
  mkState (q s) v (worker s) (refcount s) (alive s) (threads s) (ext s)
          (enq s) (out s).
Definition set_worker (v : option tid) (s : state) : state :=
  mkState (q s) (m s) v (refcount s) (alive s) (threads s) (ext s)
          (enq s) (out s).
Definition set_refcount (v : Z) (s : state) : state :=
  mkState (q s) (m s) (worker s) v (alive s) (threads s) (ext s)
          (enq s) (out s).
Definition set_alive (v : bool) (s : state) : state :=
  mkState (q s) (m s) (worker s) (refcount s) v (threads s) (ext s)
          (enq s) (out s).
Definition set_threads (v : list pc) (s : state) : state :=
  mkState (q s) (m s) (worker s) (refcount s) (alive s) v (ext s)
          (enq s) (out s).
Definition set_ext (v : nat) (s : state) : state :=
  mkState (q s) (m s) (worker s) (refcount s) (alive s) (threads s) v
          (enq s) (out s).
Definition set_enq (v : list Entry) (s : state) : state :=
  mkState (q s) (m s) (worker s) (refcount s) (alive s) (threads s) (ext s)
          v (out s).
Definition set_out (v : list (tid * Entry)) (s : state) : state :=
  mkState (q s) (m s) (worker s) (refcount s) (alive s) (threads s) (ext s)
          (enq s) v.

Definition set_pc (t : tid) (p : pc) (s : state) : state :=
  set_threads (<[t := p]> (threads s)) s.

(** What an attempt to execute a statement yields: a new state, nothing
    yet because the thread has to wait (or there is nothing to execute),
    or undefined behaviour or [std::terminate]. *)
Inductive outcome :=
| Ok (s : state)
| Blocked
| Fault.

(** [p->refcount++] on this object, through a handle. *)
Definition incref (s : state) : state :=
  set_refcount (to_int (refcount s + 1)) s.

(** [if (p && --p->refcount==0) delete p;] on this object.  The
    destructor of [AsyncLogger] destroys [worker], which calls
    [std::terminate] when it is joinable, and [m], which must not be
    owned. *)
Definition release (s : state) : outcome :=
  let rc := to_int (refcount s - 1) in
  if rc =? 0 then
    match worker s, m s with
    | None, None => Ok (set_alive false (set_refcount rc s))
    | _, _ => Fault
    end
  else Ok (set_refcount rc s).

Definition then_pc (t : tid) (p : pc) (o : outcome) : outcome :=
  match o with
  | Ok s => Ok (set_pc t p s)
  | _ => o
  end.

(** [m.lock()] by thread [t], continuing at [p]. *)
Definition lock (t : tid) (p : pc) (s : state) : outcome :=
  match m s with
  | None => Ok (set_pc t p (set_m (Some t) s))
  | Some _ => Blocked
  end.

(** [m.unlock()] by thread [t], continuing at [p]; unlocking a mutex
    the thread does not own is undefined. *)
Definition unlock (t : tid) (p : pc) (s : state) : outcome :=
  match m s with
  | Some o => if decide (o = t) then Ok (set_pc t p (set_m None s)) else Fault
  | None => Fault
  end.

(** One statement of thread [t], which is at [p]. *)
Definition step_pc (t : tid) (p : pc) (s : state) : outcome :=
  match p with
  | C_lock e => lock t (C_push e) s
  | C_push e =>
      Ok (set_pc t C_test (set_enq (enq s ++ [e]) (set_q (q s ++ [e]) s)))
  | C_test =>
      Ok (set_pc t (if (length (q s) =? 1)%nat then C_joinable else C_unlock) s)
  | C_joinable =>
      Ok (set_pc t (match worker s with Some _ => C_join | None => C_me end) s)
  | C_join =>
      match worker s with
      | Some w =>
          match threads s !! w with
          | Some W_done => Ok (set_pc t C_me (set_worker None s))
          | _ => Blocked
          end
      | None => Fault
      end
  | C_me => Ok (set_pc t C_capture (incref s))
  | C_capture => Ok (set_pc t C_spawn (incref s))
  | C_spawn =>
      match worker s with
      | Some _ => Fault
      | None =>
          let w := length (threads s) in
          Ok (set_worker (Some w)
                (set_threads (<[t := C_temp_dtor]> (threads s) ++ [W_lock])
                   (incref s)))
      end
  | C_temp_dtor => then_pc t C_me_dtor (release s)
  | C_me_dtor => then_pc t C_unlock (release s)
  | C_unlock => unlock t C_done s
  | C_done => Blocked
  | W_lock => lock t W_test s
  | W_test =>
      Ok (set_pc t (if (0 <? length (q s))%nat then W_front else W_detach) s)
  | W_front =>
      match q s with
      | e :: _ => Ok (set_pc t (W_unlock e) s)
      | [] => Fault
      end
  | W_unlock e => unlock t (W_log e) s
  | W_log e => Ok (set_pc t (W_in_log e) (set_out (out s ++ [(t, e)]) s))
  | W_in_log e => Ok (set_pc t W_relock s)
  | W_relock => lock t W_pop s
  | W_pop =>
      match q s with
      | _ :: q' => Ok (set_pc t W_test (set_q q' s))
      | [] => Fault
      end
  | W_detach =>
      match worker s with
      | Some _ => Ok (set_pc t W_unlock_end (set_worker None s))
      | None => Fault
      end
  | W_unlock_end => unlock t W_release s
  | W_release => then_pc t W_done (release s)
  | W_done => Blocked
  end.

Definition finished (p : pc) : bool :=
  match p with
  | C_done | W_done => true
  | _ => false
  end.

Definition is_caller (p : pc) : bool :=
  match p with
  | C_lock _ | C_push _ | C_test | C_joinable | C_join | C_me | C_capture
  | C_spawn | C_temp_dtor | C_me_dtor | C_unlock | C_done => true
  | _ => false
  end.

(** A caller that has not returned from [log] yet. *)
Definition in_call (p : pc) : bool := is_caller p && negb (finished p).

(** What happens around the object. *)
Inductive event :=
| Call (e : Entry)   (* a thread holding a handle enters log(e) *)
| Step (t : tid)     (* thread t executes its next statement *)
| ExtCopy            (* a handle held by the program is copied *)
| ExtRelease.        (* a handle held by the program is destroyed *)

(** A statement of a thread that is not finished touches the object, so
    the object must not have been deleted.  A call goes through a
    handle held by the program, and that handle outlives the call: the
    program does not give up its last handle during a call. *)
Definition step (ev : event) (s : state) : outcome :=
  match ev with
  | Call e =>
      if (0 <? ext s)%nat then
        if alive s then Ok (set_threads (threads s ++ [C_lock e]) s) else Fault
      else Blocked
  | Step t =>
      match threads s !! t with
      | None => Blocked
      | Some p =>
          if finished p then Blocked
          else if alive s then step_pc t p s else Fault
      end
  | ExtCopy =>
      if (0 <? ext s)%nat then
        if alive s then Ok (set_ext (S (ext s)) (incref s)) else Fault
      else Blocked
  | ExtRelease =>
      if (0 <? ext s)%nat && ((1 <? ext s)%nat || negb (existsb in_call (threads s)))
      then
        if alive s then release (set_ext (pred (ext s)) s) else Fault
      else Blocked
  end.

(** A schedule, from the first event on; a blocked event is skipped. *)
Fixpoint exec (tr : list event) (s : state) : option state :=
  match tr with
  | [] => Some s
  | ev :: tr' =>
      match step ev s with
      | Ok s' => exec tr' s'
      | Blocked => exec tr' s
      | Fault => None
      end
  end.

(** A new [AsyncLogger] held through [n] handles. *)
Definition init (n : nat) : state :=
  mkState [] None None (Z.of_nat n) true [] n [] [].

(** *** Vocabulary of the properties *)

(** The statements between acquiring and releasing [m]. *)
Definition holds_lock (p : pc) : bool :=
  match p with
  | C_push _ | C_test | C_joinable | C_join | C_me | C_capture | C_spawn
  | C_temp_dtor | C_me_dtor | C_unlock
  | W_test | W_front | W_unlock _ | W_pop | W_detach | W_unlock_end => true
  | _ => false
  end.

(** A worker that drains: from its start to its [worker.detach()]. *)
Definition draining (p : pc) : bool :=
  match p with
  | W_lock | W_test | W_front | W_unlock _ | W_log _ | W_in_log _
  | W_relock | W_pop | W_detach => true
  | _ => false
  end.

(** A worker inside [L->log(e)]. *)
Definition delivering (p : pc) : bool :=
  match p with
  | W_in_log _ => true
  | _ => false
  end.

(** A worker that has called [L->log] on the head of the queue and has
    not popped it yet. *)
Definition delivered_head (p : pc) : bool :=
  match p with
  | W_in_log _ | W_relock | W_pop => true
  | _ => false
  end.

(** A worker thread whose closure, with its copy of [me], is alive. *)
Definition holds_closure (p : pc) : bool :=
  negb (is_caller p) && negb (finished p).

(** The handles [me] and the temporary closure's copy, on the stack of
    a caller. *)
Definition local_refs (p : pc) : nat :=
  match p with
  | C_capture => 1
  | C_spawn => 2
  | C_temp_dtor => 2
  | C_me_dtor => 1
  | _ => 0
  end.

Definition closure_refs (p : pc) : nat :=
  if holds_closure p then 1 else 0.

(** The sum of [f] over the threads. *)
Definition total (f : pc -> nat) (ths : list pc) : nat :=
  foldr (fun p n => (f p + n)%nat) 0%nat ths.

Definition closures (ths : list pc) : nat := total closure_refs ths.

Definition locals (ths : list pc) : nat := total local_refs ths.

(** All handles to the object: the program's, the workers' and the
    callers' locals. *)
Definition handles (s : state) : nat :=
  (ext s + closures (threads s) + locals (threads s))%nat.

(** The number of records at the head of [q] whose delivery has begun
    (0 or 1). *)
Definition in_flight (wk : option tid) (ths : list pc) : nat :=
  match wk with
  | Some w =>
      match ths !! w with
      | Some p => if delivered_head p then 1 else 0
      | None => 0
      end
  | None => 0
  end.

(** The records handed to [L->log], in the order of the calls. *)
Definition delivered (s : state) : list Entry := map snd (out s).

(** The records still to be handed to [L->log]. *)
Definition undelivered (s : state) : list Entry :=
  drop (in_flight (worker s) (threads s)) (q s).

(** The claim that a call of [log] leaves everything but the queue and
    the worker handle as it was: the count, the liveness, the mutex and
    the downstream calls. *)
Definition only_queue_and_worker_changed (s s' : state) : Prop :=
  refcount s' = refcount s /\ alive s' = alive s /\ m s' = m s
  /\ out s' = out s.

(** The statements of one caller, run without interruption until it
    returns from [log] (at most [fuel] statements). *)
Fixpoint run_call (fuel : nat) (t : tid) (s : state) : option state :=
  match fuel with
  | O => None
  | S n =>
      match threads s !! t with
      | Some C_done => Some s
      | _ =>
          match step (Step t) s with
          | Ok s' => run_call n t s'
          | _ => None
          end
      end
  end.

(** An upper bound on the statements a thread that owns [m] executes
    before it has given [m] up. *)
Definition left_under_lock (p : pc) : nat :=
  match p with
  | C_push _ => 9
  | C_test => 8
  | C_joinable => 7
  | C_join => 7
  | C_me => 6
  | C_capture => 5
  | C_spawn => 4
  | C_temp_dtor => 3
  | C_me_dtor => 2
  | C_unlock => 1
  | W_pop => 4
  | W_test => 3
  | W_front => 2
  | W_unlock _ => 1
  | W_detach => 2
  | W_unlock_end => 1
  | _ => 0
  end.

(** The statements of the thread [o] for as long as it owns [m], run
    without interruption (at most [fuel] statements). *)
Fixpoint run_owner (fuel : nat) (o : tid) (s : state) : option state :=
  match fuel with
  | O => None
  | S n =>
      if decide (m s = Some o) then
        match step (Step o) s with
        | Ok s' => run_owner n o s'
        | _ => None
        end
      else Some s
  end.

End Async.
(** * Properties *)

(** ** Machine integers *)

Lemma to_int_id z : INT_MIN <= z <= INT_MAX -> to_int z = z.
Proof.
  unfold to_int, INT_MIN, INT_MAX. intros H.
  rewrite Z.mod_small; lia.
Qed.

Lemma to_int_range z : INT_MIN <= to_int z <= INT_MAX.
Proof.
  unfold to_int, INT_MIN, INT_MAX.
  pose proof (Z.mod_pos_bound (z + 2 ^ 31) (2 ^ 32)). lia.
Qed.

(** ** Severity names *)

Module SeverityFacts.
Import Severity.

Lemma severities_lookup (k : Z) :
  severities !! k =
    if decide (k = 0) then Some "info"%string
    else if decide (k = 100) then Some "warning"%string
    else if decide (k = 200) then Some "error"%string
    else if decide (k = 1000) then Some "fatal error"%string
    else None.
Proof.
  unfold severities.
  repeat (case_decide; [subst k; reflexivity | rewrite lookup_insert_ne by lia]).
  apply lookup_empty.
Qed.

Example sevname_exact :
  map sevname [0; 100; 200; 1000]
  = ["info"; "warning"; "error"; "fatal error"]%string.
Proof. vm_compute. reflexivity. Qed.

Example sevname_banded :
  map sevname [50; 199; 250; 1099; -1; -99]
  = ["info"; "warning"; "error"; "fatal error"; "info"; "info"]%string.
Proof. vm_compute. reflexivity. Qed.

Example sevname_unmatched :
  map sevname [300; 999; 1100; -100; -350]
  = ["severity=300"; "severity=999"; "severity=1100"; "severity=-100";
     "severity=-350"]%string.
Proof. vm_compute. reflexivity. Qed.

(** The key that the second [find] uses. *)
Lemma quot_band (n b : Z) :
  0 <= b -> (Z.quot n 100 * 100 = b <-> (b = 0 /\ -100 < n < 100) \/
                                         (0 < b /\ b mod 100 = 0 /\ b <= n < b + 100)).
Proof.
  intros Hb.
  destruct (Z.le_gt_cases 0 n) as [Hn | Hn].
  - rewrite Z.quot_div_nonneg by lia.
    pose proof (Z.div_mod n 100 ltac:(lia)) as Hdm.
    pose proof (Z.mod_pos_bound n 100 ltac:(lia)) as Hm.
    split.
    + intros <-. destruct (Z.eq_dec (n / 100) 0) as [Hz | Hz].
      * left. lia.
      * right. pose proof (Z.div_pos n 100 Hn ltac:(lia)).
        rewrite Z.mod_mul by lia. lia.
    + intros [[-> Hr] | (Hpos & Hmod & Hr)].
      * rewrite Z.div_small by lia. lia.
      * apply Z.mod_divide in Hmod; [| lia]. destruct Hmod as [c ->].
        assert (n / 100 = c) by (symmetry; apply (Z.div_unique n 100 c (n - c * 100)); lia).
        lia.
  - assert (Hq : Z.quot n 100 = - ((- n) / 100)).
    { rewrite <- (Z.opp_involutive n) at 1. rewrite Z.quot_opp_l by lia.
      rewrite Z.quot_div_nonneg by lia. reflexivity. }
    rewrite Hq.
    pose proof (Z.div_mod (- n) 100 ltac:(lia)) as Hdm.
    pose proof (Z.mod_pos_bound (- n) 100 ltac:(lia)) as Hm.
    pose proof (Z.div_pos (- n) 100 ltac:(lia) ltac:(lia)).
    split.
    + intros Hb'. left. lia.
    + intros [[-> Hr] | (Hpos & Hmod & Hr)]; [| lia].
      rewrite Z.div_small by lia. lia.
Qed.

(** The bands [sevname] realises: an exact key or, failing that, the key
    obtained by truncating towards zero. *)
Definition band_name (n : Z) : string :=
  if (-100 <? n) && (n <? 100) then "info"
  else if (100 <=? n) && (n <? 200) then "warning"
  else if (200 <=? n) && (n <? 300) then "error"
  else if (1000 <=? n) && (n <? 1100) then "fatal error"
  else ("severity=" ++ decimal n)%string.

Lemma sevname_second_find (n : Z) :
  severities !! (Z.quot n 100 * 100) =
    if (-100 <? n) && (n <? 100) then Some "info"%string
    else if (100 <=? n) && (n <? 200) then Some "warning"%string
    else if (200 <=? n) && (n <? 300) then Some "error"%string
    else if (1000 <=? n) && (n <? 1100) then Some "fatal error"%string
    else None.
Proof.
  rewrite severities_lookup.
  pose proof (quot_band n 0 ltac:(lia)) as H0.
  pose proof (quot_band n 100 ltac:(lia)) as H1.
  pose proof (quot_band n 200 ltac:(lia)) as H2.
  pose proof (quot_band n 1000 ltac:(lia)) as H3.
  change (100 mod 100) with 0 in H1. change (200 mod 100) with 0 in H2.
  change (1000 mod 100) with 0 in H3.
  repeat case_decide;
    repeat match goal with
           | |- context [?a <? ?b] => destruct (Z.ltb_spec a b)
           | |- context [?a <=? ?b] => destruct (Z.leb_spec a b)
           end; simpl; try reflexivity; exfalso; lia.
Qed.

(** C8 (as amended): for every severity [n], [sevname n] is the table
    name of [n] on an exact match in
    [{0:info, 100:warning, 200:error, 1000:fatal error}], otherwise the
    name of [n/100*100] with the division truncating towards zero, and
    otherwise [severity=<n>]; in bands: [info] on (-100,100), [warning]
    on [100,200), [error] on [200,300), [fatal error] on [1000,1100). *)
Theorem sevname_bands (n : Z) :
  sevname n = band_name n
  /\ sevname n =
       match severities !! n with
       | Some name => name
       | None =>
           match severities !! (Z.quot n 100 * 100) with
           | Some name => name
           | None => ("severity=" ++ decimal n)%string
           end
       end.
Proof.
  split.
  - unfold sevname, band_name.
    destruct (severities !! n) as [name |] eqn:Hn.
    + rewrite severities_lookup in Hn.
      repeat case_decide; try discriminate; subst n;
        injection Hn as <-; reflexivity.
    + rewrite sevname_second_find.
      repeat match goal with
             | |- context [if ?b then _ else _] => destruct b
             end; reflexivity.
  - unfold sevname. destruct (severities !! n); reflexivity.
Qed.

(** C8 (as stated) fails: the table's name for 1000 is [fatal error],
    not [fatal], and a negative severity such as -50 is truncated to the
    key 0 instead of being rounded down to -100. *)
Lemma sevname_differs_from_spec :
  sevname 1000 <> sevname_spec 1000 /\ sevname (-50) <> sevname_spec (-50).
Proof. split; vm_compute; discriminate. Qed.

(** On non-negative severities truncation and rounding down agree, so
    there the only difference to the specified lookup is the table. *)
Lemma trunc_is_floor_nonneg (n : Z) :
  0 <= n -> Z.quot n 100 * 100 = n / 100 * 100.
Proof. intros H. rewrite Z.quot_div_nonneg by lia. reflexivity. Qed.

End SeverityFacts.

(** ** MemLogger *)

Module MemFacts.
Import Mem.

Lemma evict_cond_unbounded q : evict_cond (-1) q = false.
Proof. reflexivity. Qed.

Lemma evict_cond_bounded (k : Z) (q : list Entry) :
  0 <= k -> Z.of_nat (length q) <= INT_MAX ->
  evict_cond k q = (Z.of_nat (length q) >? k).
Proof.
  intros Hk Hq. unfold evict_cond.
  rewrite to_int_id by (unfold INT_MIN, INT_MAX in *; lia).
  destruct (Z.eqb_spec k (-1)); [lia | reflexivity].
Qed.

(** The loop never lengthens the deque. *)
Lemma evict_length ms q r : evict ms q = Some r -> (length r <= length q)%nat.
Proof.
  revert r. induction q as [| x q IH]; intros r; simpl.
  - destruct (evict_cond ms []); [discriminate |]. intros [= <-]. simpl. lia.
  - destruct (evict_cond ms (x :: q)).
    + intros H. apply IH in H. lia.
    + intros [= <-]. simpl. lia.
Qed.

(** With a capacity [k >= 0] the loop pops from the head until the size
    is [k]. *)
Lemma evict_drop (k : Z) (q : list Entry) :
  0 <= k -> Z.of_nat (length q) <= INT_MAX ->
  evict k q = Some (drop (length q - Z.to_nat k) q).
Proof.
  intros Hk. induction q as [| x q IH]; intros Hq.
  - simpl. rewrite evict_cond_bounded by (simpl; unfold INT_MAX; lia).
    simpl. change (Z.of_nat 0) with 0.
    destruct (Z.gtb_spec 0 k); [lia | reflexivity].
  - cbn [evict]. rewrite evict_cond_bounded by assumption.
    cbn [length] in *.
    destruct (Z.gtb_spec (Z.of_nat (S (length q))) k) as [Hgt | Hle].
    + rewrite IH by lia.
      replace (S (length q) - Z.to_nat k)%nat
        with (S (length q - Z.to_nat k)) by lia.
      reflexivity.
    + replace (S (length q) - Z.to_nat k)%nat with 0%nat by lia.
      reflexivity.
Qed.

Lemma log_drop (k : Z) (q : list Entry) (e : Entry) :
  0 <= k -> Z.of_nat (length q) < INT_MAX ->
  log k q e = Some (drop (length q + 1 - Z.to_nat k) (q ++ [e])).
Proof.
  intros Hk Hq. unfold log. rewrite evict_drop.
  - rewrite length_app. reflexivity.
  - assumption.
  - rewrite length_app. simpl. lia.
Qed.

Lemma logs_drop (k : Z) (es q : list Entry) :
  0 <= k < INT_MAX -> (length q <= Z.to_nat k)%nat ->
  logs k q es = Some (drop (length (q ++ es) - Z.to_nat k) (q ++ es)).
Proof.
  intros Hk. revert q. induction es as [| e es IH]; intros q Hq.
  - simpl. rewrite app_nil_r.
    replace (length q - Z.to_nat k)%nat with 0%nat by lia. reflexivity.
  - cbn [logs]. rewrite log_drop by lia.
    rewrite IH by (rewrite length_drop, length_app; simpl; lia).
    f_equal.
    set (d := (length q + 1 - Z.to_nat k)%nat).
    assert (Hd : (d <= length (q ++ [e]))%nat)
      by (rewrite length_app; simpl; lia).
    rewrite <- (drop_app_le (q ++ [e]) es d Hd).
    rewrite <- app_assoc. simpl.
    rewrite drop_drop. f_equal.
    rewrite length_drop, !length_app. simpl. lia.
Qed.

(** The converted size [int(q.size())] never exceeds the largest [int],
    so with that capacity the loop never runs. *)
Lemma evict_cond_int_max (q : list Entry) : evict_cond INT_MAX q = false.
Proof.
  unfold evict_cond.
  pose proof (to_int_range (Z.of_nat (length q))) as Hr.
  destruct (Z.gtb_spec (to_int (Z.of_nat (length q))) INT_MAX); [lia |].
  apply andb_false_r.
Qed.

Lemma log_int_max (q : list Entry) (e : Entry) :
  log INT_MAX q e = Some (q ++ [e]).
Proof.
  unfold log. destruct (q ++ [e]); cbn [evict];
    rewrite evict_cond_int_max; reflexivity.
Qed.

Lemma logs_int_max (es q : list Entry) : logs INT_MAX q es = Some (q ++ es).
Proof.
  revert q. induction es as [| e es IH]; intros q; cbn [logs].
  - rewrite app_nil_r. reflexivity.
  - rewrite log_int_max, IH, <- app_assoc. reflexivity.
Qed.

Lemma log_unbounded (q : list Entry) (e : Entry) :
  log (-1) q e = Some (q ++ [e]).
Proof.
  unfold log. destruct (q ++ [e]); cbn [evict];
    rewrite evict_cond_unbounded; reflexivity.
Qed.

Lemma logs_unbounded (es q : list Entry) : logs (-1) q es = Some (q ++ es).
Proof.
  revert q. induction es as [| e es IH]; intros q; cbn [logs].
  - rewrite app_nil_r. reflexivity.
  - rewrite log_unbounded, IH, <- app_assoc. reflexivity.
Qed.

(** C5 (as amended): for a capacity [0 <= k <= INT_MAX], [log] on a
    deque of fewer than [INT_MAX] records appends at the tail and then
    pops from the head until the size is [k] when it exceeds [k].  For
    [k < INT_MAX], after logging any number [n] of records into a
    MemLogger that held at most [k] the deque holds the last [k] of the
    records in insertion order (all of them when there are at most
    [k]); from the empty deque and with [n > k] these are exactly the
    last [k] records logged.  For [k = INT_MAX], as for [-1], nothing is
    ever evicted, whatever the deque and however many records are
    logged. *)
Theorem memlogger_eviction (k : Z) (Hk : 0 <= k <= INT_MAX) :
  (forall q e, Z.of_nat (length q) < INT_MAX ->
     log k q e = Some (drop (length q + 1 - Z.to_nat k) (q ++ [e])))
  /\ (k < INT_MAX ->
      (forall q es, (length q <= Z.to_nat k)%nat ->
         logs k q es
         = Some (drop (length (q ++ es) - Z.to_nat k) (q ++ es)))
      /\ (forall es,
            logs k [] es = Some (drop (length es - Z.to_nat k) es)
            /\ ((Z.to_nat k < length es)%nat ->
                exists buf, logs k [] es = Some buf
                            /\ length buf = Z.to_nat k
                            /\ exists old, es = old ++ buf)))
  /\ (k = INT_MAX ->
      (forall q e, log k q e = Some (q ++ [e]))
      /\ (forall q es, logs k q es = Some (q ++ es)))
  /\ (forall q e, log (-1) q e = Some (q ++ [e]))
  /\ (forall q es, logs (-1) q es = Some (q ++ es)).
Proof.
  split; [| split; [| split; [| split]]].
  - intros q e Hq. apply log_drop; lia.
  - intros Hlt. split.
    + intros q es Hq. apply logs_drop; [lia | exact Hq].
    + intros es.
      assert (H : logs k [] es = Some (drop (length es - Z.to_nat k) es))
        by (apply (logs_drop k es []); simpl; lia).
      split; [exact H |].
      intros Hn. eexists. split; [exact H |]. split.
      * rewrite length_drop. lia.
      * exists (take (length es - Z.to_nat k) es). symmetry. apply take_drop.
  - intros ->. split.
    + apply log_int_max.
    + intros q es. apply logs_int_max.
  - apply log_unbounded.
  - intros q es. apply logs_unbounded.
Qed.

Definition rec (n : Z) : Entry := mkEntry 0%float n "ctx" "msg".

Lemma memlogger_eviction_witness :
  logs 2 [] [rec 1; rec 2; rec 3] = Some [rec 2; rec 3]
  /\ log 2 [rec 1; rec 2] (rec 3) = Some [rec 2; rec 3].
Proof.
  assert (Hk : 0 <= 2 <= INT_MAX) by (unfold INT_MAX; lia).
  assert (Hlt : 2 < INT_MAX) by (unfold INT_MAX; lia).
  destruct (memlogger_eviction 2 Hk) as (Hlog & Hlogs & _).
  split.
  - exact (proj1 (proj2 (Hlogs Hlt) [rec 1; rec 2; rec 3])).
  - apply (Hlog [rec 1; rec 2] (rec 3)). unfold INT_MAX. simpl. lia.
Defined.

(** One record more than the largest capacity. *)
Definition overfull : list Entry := replicate (Z.to_nat (INT_MAX + 1)) (rec 0).

(** C5 (as stated) fails at the capacity [INT_MAX]: after [INT_MAX + 1]
    records have been logged into an empty MemLogger of that capacity
    the deque holds all of them, not the last [INT_MAX]; the size,
    converted to [int], is then negative and does not exceed the
    capacity. *)
Lemma capacity_int_max_keeps_all :
  0 <= INT_MAX
  /\ (Z.to_nat INT_MAX < length overfull)%nat
  /\ logs INT_MAX [] overfull = Some overfull
  /\ to_int (Z.of_nat (length overfull)) = INT_MIN
  /\ ~ (exists buf, logs INT_MAX [] overfull = Some buf
                    /\ length buf = Z.to_nat INT_MAX).
Proof.
  unfold overfull.
  assert (Hn : Z.of_nat (Z.to_nat (INT_MAX + 1)) = INT_MAX + 1)
    by (unfold INT_MAX; lia).
  generalize dependent (Z.to_nat (INT_MAX + 1)). intros n Hn.
  assert (Hlogs : logs INT_MAX [] (replicate n (rec 0))
                  = Some (replicate n (rec 0)))
    by apply (logs_int_max (replicate n (rec 0)) []).
  rewrite length_replicate, Hn.
  split; [unfold INT_MAX; lia |].
  split; [unfold INT_MAX in *; lia |].
  split; [exact Hlogs |]. split.
  - reflexivity.
  - intros (buf & Hbuf & Hl). rewrite Hlogs in Hbuf.
    injection Hbuf as <-. rewrite length_replicate in Hl.
    unfold INT_MAX in *. lia.
Qed.

(** With a capacity in the documented range the loop stops before the
    deque is empty or at the latest when it is. *)
Lemma evict_is_Some (max_size : Z) (l : list Entry) :
  0 <= max_size \/ max_size = -1 -> is_Some (evict max_size l).
Proof.
  intros Hcap. induction l as [| x l IH]; cbn [evict].
  - unfold evict_cond. cbn [length].
    change (to_int (Z.of_nat 0)) with 0.
    destruct Hcap as [H | ->]; [| simpl; eauto].
    destruct (Z.gtb_spec 0 max_size); [lia |].
    rewrite andb_false_r. eauto.
  - destruct (evict_cond max_size (x :: l)); eauto.
Qed.

Lemma log_is_Some (max_size : Z) (q : list Entry) (e : Entry) :
  0 <= max_size \/ max_size = -1 -> is_Some (log max_size q e).
Proof. intros H. apply evict_is_Some, H. Qed.

(** C10: with [max_size >= 0] or [max_size = -1] the eviction loop never
    pops an empty deque, so [log] always returns; and [-1] is the only
    value that disables eviction: under any other capacity that the size
    exceeds, the deque does not keep every record. *)
Theorem memlogger_pop_safe (max_size : Z) (q : list Entry) (e : Entry)
  (Hcap : 0 <= max_size \/ max_size = -1) :
  is_Some (log max_size q e)
  /\ (max_size = -1 -> log max_size q e = Some (q ++ [e]))
  /\ (forall ms q' e', ms <> -1 ->
        to_int (Z.of_nat (length (q' ++ [e']))) > ms ->
        log ms q' e' <> Some (q' ++ [e'])).
Proof.
  split; [| split].
  - apply log_is_Some, Hcap.
  - intros ->. unfold log.
    destruct (q ++ [e]) eqn:E; simpl; rewrite ?evict_cond_unbounded; reflexivity.
  - intros ms q' e' Hms Hgt. unfold log.
    destruct (q' ++ [e']) as [| x l] eqn:E; [destruct q'; discriminate |].
    cbn [evict]. unfold evict_cond at 1.
    destruct (Z.eqb_spec ms (-1)); [contradiction |].
    destruct (Z.gtb_spec (to_int (Z.of_nat (length (x :: l)))) ms); [| lia].
    simpl. intros Hev. apply evict_length in Hev. simpl in Hev. lia.
Qed.

Lemma memlogger_pop_safe_witness :
  is_Some (log 0 [] (rec 7)) /\ log (-1) [rec 1] (rec 2) = Some [rec 1; rec 2].
Proof.
  split.
  - apply (memlogger_pop_safe 0 [] (rec 7)). left. lia.
  - apply (memlogger_pop_safe (-1) [rec 1] (rec 2)); [right |]; reflexivity.
Defined.

(** A capacity below [-1] is outside the precondition: the loop empties
    the deque and then pops it once more. *)
Lemma log_negative_capacity (ms : Z) (q : list Entry) (e : Entry) :
  ms < -1 -> Z.of_nat (length q) < INT_MAX -> log ms q e = None.
Proof.
  intros Hms Hq. unfold log.
  assert (Hl : Z.of_nat (length (q ++ [e])) <= INT_MAX)
    by (rewrite length_app; simpl; lia).
  induction (q ++ [e]) as [| x l IH].
  - cbn [evict]. unfold evict_cond. cbn [length].
    change (to_int (Z.of_nat 0)) with 0.
    destruct (Z.eqb_spec ms (-1)); [lia |].
    destruct (Z.gtb_spec 0 ms); [reflexivity | lia].
  - cbn [evict]. unfold evict_cond.
    rewrite to_int_id by (unfold INT_MIN, INT_MAX in *; lia).
    destruct (Z.eqb_spec ms (-1)); [lia |].
    destruct (Z.gtb_spec (Z.of_nat (length (x :: l))) ms); [| lia].
    simpl. apply IH. simpl in Hl. lia.
Qed.

Lemma evict_suffix ms l r :
  evict ms l = Some r -> exists old, l = old ++ r.
Proof.
  revert r. induction l as [| x l IH]; intros r; cbn [evict].
  - destruct (evict_cond ms []); [discriminate |].
    intros [= <-]. exists []. reflexivity.
  - destruct (evict_cond ms (x :: l)).
    + intros H. destruct (IH r H) as [old ->]. exists (x :: old). reflexivity.
    + intros [= <-]. exists []. reflexivity.
Qed.

(** Whatever the capacity, when [log] returns the deque is a suffix of
    the old deque followed by the new record: eviction removes from the
    head only and never reorders, so what is left, if anything, ends
    with the record just logged. *)
Theorem log_keeps_suffix (max_size : Z) (q : list Entry) (e : Entry)
    (r : list Entry) (Hlog : log max_size q e = Some r) :
  (exists old, q ++ [e] = old ++ r)
  /\ (length r <= length q + 1)%nat
  /\ (r = [] \/ exists r', r = r' ++ [e]).
Proof.
  unfold log in Hlog. destruct (evict_suffix _ _ _ Hlog) as [old Hold].
  split; [eauto |]. split.
  - apply evict_length in Hlog. rewrite length_app in Hlog. simpl in Hlog. lia.
  - destruct r as [| y r] using rev_ind; [left; reflexivity | right].
    rewrite app_assoc in Hold. apply app_inj_tail in Hold as [_ ->]. eauto.
Qed.

Lemma log_keeps_suffix_witness :
  exists old, [rec 1; rec 2] ++ [rec 3] = old ++ [rec 2; rec 3].
Proof.
  apply (log_keeps_suffix 2 [rec 1; rec 2] (rec 3) [rec 2; rec 3]).
  vm_compute. reflexivity.
Defined.

(** A capacity below [-1] is outside the documented range: the loop
    empties the deque and then calls [pop_front] on the empty deque,
    which is undefined. *)
Theorem log_below_sentinel_undefined (max_size : Z) (q : list Entry)
    (e : Entry) (Hcap : max_size < -1)
    (Hsize : Z.of_nat (length q) < INT_MAX) :
  log max_size q e = None.
Proof.
  unfold log.
  assert (Hl : Z.of_nat (length (q ++ [e])) <= INT_MAX)
    by (rewrite length_app; simpl; lia).
  induction (q ++ [e]) as [| x l IH].
  - cbn [evict]. unfold evict_cond. cbn [length].
    change (to_int (Z.of_nat 0)) with 0.
    destruct (Z.eqb_spec max_size (-1)); [lia |].
    destruct (Z.gtb_spec 0 max_size); [reflexivity | lia].
  - cbn [evict]. unfold evict_cond.
    rewrite to_int_id by (unfold INT_MIN, INT_MAX in *; lia).
    destruct (Z.eqb_spec max_size (-1)); [lia |].
    destruct (Z.gtb_spec (Z.of_nat (length (x :: l))) max_size); [| lia].
    simpl. apply IH. simpl in Hl. lia.
Qed.

Lemma log_below_sentinel_undefined_witness : log (-2) [rec 1] (rec 2) = None.
Proof.
  apply log_below_sentinel_undefined; [lia | vm_compute; reflexivity].
Defined.

End MemFacts.

(** ** The synchronous sinks *)

Module SinkFacts.
Import Sinks.

Lemma severity_in_range_spec (low high : Z) (e : Entry) :
  severity_in_range low high e = true
  <-> severity e >= low /\ (high = -1 \/ severity e <= high).
Proof.
  unfold severity_in_range.
  rewrite andb_true_iff, orb_true_iff, Z.geb_le, Z.eqb_eq, Z.leb_le. lia.
Qed.

(** Every [log] invocation records itself first. *)
Lemma log_trace_head fuel a e st r :
  log fuel a e st = Some r -> exists t, r.2 = (a, e) :: t.
Proof.
  destruct fuel as [| n]; [discriminate |]. cbn [log].
  destruct (st !! a) as [[Ls | L f | q ms | file fmt ac] |]; try discriminate.
  - destruct (log_each (log n) Ls e st) as [r' |]; [| discriminate].
    intros [= <-]. simpl. eauto.
  - destruct (f e).
    + destruct (log n L e st) as [r' |]; [| discriminate].
      intros [= <-]. simpl. eauto.
    + intros [= <-]. simpl. eauto.
  - destruct (Mem.log ms q e); [| discriminate]. intros [= <-]. simpl. eauto.
  - intros [= <-]. simpl. eauto.
Qed.

Lemma severityFilter_fresh st L low high :
  st !! (severityFilter st L low high).2 = None.
Proof.
  simpl. apply not_elem_of_dom. apply is_fresh.
Qed.

(** C6: the sink made by [severityFilter(L, low, high)] forwards a
    record to [L] exactly when [severity >= low] and ([high = -1] or
    [severity <= high]); otherwise it returns at once, leaving the heap
    (hence the downstream sink) as it was.  With [low = 100] and
    [high = -1], severities 100 and 1000 are forwarded, severity 0 is
    dropped. *)
Theorem severity_filter_correct (st : gmap addr Logger) (L : addr)
    (low high : Z) (e : Entry) (fuel : nat) (HL : is_Some (st !! L)) :
  let st1 := (severityFilter st L low high).1 in
  let a := (severityFilter st L low high).2 in
  let pass := severity e >= low /\ (high = -1 \/ severity e <= high) in
  (pass -> log (S fuel) a e st1 = entered (a, e) <$> log fuel L e st1)
  /\ (~ pass -> log (S fuel) a e st1 = Some (st1, [(a, e)]))
  /\ (forall r, log (S fuel) a e st1 = Some r -> ((L, e) ∈ r.2 <-> pass))
  /\ (low = 100 -> high = -1 ->
      (severity e = 100 \/ severity e = 1000 -> pass)
      /\ (severity e = 0 -> ~ pass)).
Proof.
  intros st1 a pass.
  assert (Hne : a <> L).
  { intros Heq. destruct HL as [x Hx].
    pose proof (severityFilter_fresh st L low high) as Hf.
    fold a in Hf. rewrite Heq in Hf. congruence. }
  assert (Hlk : st1 !! a = Some (FilteringLogger L (severity_in_range low high)))
    by apply lookup_insert_eq.
  assert (Hpass : pass -> log (S fuel) a e st1 = entered (a, e) <$> log fuel L e st1).
  { intros Hp. cbn [log]. rewrite Hlk.
    apply severity_in_range_spec in Hp. rewrite Hp. reflexivity. }
  assert (Hdrop : ~ pass -> log (S fuel) a e st1 = Some (st1, [(a, e)])).
  { intros Hp. cbn [log]. rewrite Hlk.
    destruct (severity_in_range low high e) eqn:E; [| reflexivity].
    apply severity_in_range_spec in E. contradiction. }
  split; [exact Hpass |]. split; [exact Hdrop |]. split.
  - intros r Hr.
    destruct (severity_in_range low high e) eqn:E.
    + apply severity_in_range_spec in E.
      split; [intros _; exact E |]. intros _.
      rewrite (Hpass E) in Hr.
      destruct (log fuel L e st1) as [r' |] eqn:Hd; [| discriminate].
      apply log_trace_head in Hd as [t Ht].
      simpl in Hr. injection Hr as Hr. subst r. simpl. rewrite Ht.
      rewrite !elem_of_cons. auto.
    + assert (Hn : ~ pass).
      { intros Hp. apply severity_in_range_spec in Hp. congruence. }
      rewrite (Hdrop Hn) in Hr. simplify_eq. simpl.
      split; [| contradiction].
      intros Hin. apply list_elem_of_singleton in Hin.
      inversion Hin. congruence.
  - intros -> ->. subst pass. simpl. split; intros H; lia.
Qed.

Definition rec (n : Z) : Entry := mkEntry 0%float n "ctx" "msg".

(** A MemLogger at address 0 behind [severityFilter(_, 100)]: of the
    severities 100, 0, 1000 it receives 100 and 1000. *)
Definition filtered_mem : gmap addr Logger * addr :=
  severityFilter {[ 0%nat := MemLogger [] (-1) ]} 0%nat 100 (-1).

Example severity_filter_run :
  (r1 ← log 2 filtered_mem.2 (rec 100) filtered_mem.1;
   r2 ← log 2 filtered_mem.2 (rec 0) r1.1;
   r3 ← log 2 filtered_mem.2 (rec 1000) r2.1;
   Some (r3.1 !! 0%nat))
  = Some (Some (MemLogger [rec 100; rec 1000] (-1))).
Proof. vm_compute. reflexivity. Qed.

Lemma severity_filter_correct_witness :
  log 2 filtered_mem.2 (rec 0) filtered_mem.1
  = Some (filtered_mem.1, [(filtered_mem.2, rec 0)]).
Proof.
  assert (HL : is_Some (({[ 0%nat := MemLogger [] (-1) ]} : gmap addr Logger) !! 0%nat))
    by (rewrite lookup_singleton_eq; eauto).
  apply (severity_filter_correct _ 0%nat 100 (-1) (rec 0) 1 HL).
  simpl. lia.
Defined.

(** The loop of [MultiLogger::log] against the fan-out relation. *)
Lemma log_each_fanout dispatch e Ls st st' t :
  log_each dispatch Ls e st = Some (st', t) <-> fanout dispatch e Ls st st' t.
Proof.
  split.
  - revert st st' t. induction Ls as [| x Ls IH]; intros st st' t; simpl.
    + intros [= <- <-]. constructor.
    + destruct (dispatch x e st) as [[st1 t1] |] eqn:Hx; [| discriminate].
      destruct (log_each dispatch Ls e st1) as [[st2 t2] |] eqn:Hr;
        [| discriminate].
      intros [= <- <-]. econstructor; eauto.
  - induction 1 as [| x Ls st st1 t1 st2 t2 Hx _ IH]; simpl.
    + reflexivity.
    + rewrite Hx, IH. reflexivity.
Qed.

Definition is_mem (st : gmap addr Logger) (x : addr) : Prop :=
  exists q ms, st !! x = Some (MemLogger q ms) /\ (0 <= ms \/ ms = -1).

(** Fan-out over MemLoggers: every one of them is invoked once per
    occurrence, in the order of [Ls]; nothing else changes. *)
Lemma log_each_mem (n : nat) (e : Entry) (Ls : list addr) :
  forall st, (forall x, x ∈ Ls -> is_mem st x) ->
  exists st',
    log_each (log (S n)) Ls e st = Some (st', map (fun x => (x, e)) Ls)
    /\ (forall x q ms, st !! x = Some (MemLogger q ms) ->
          (0 <= ms \/ ms = -1) ->
          exists q', mem_log_times (count_occ Nat.eq_dec Ls x) ms q e = Some q'
                     /\ st' !! x = Some (MemLogger q' ms))
    /\ (forall y, y ∉ Ls -> st' !! y = st !! y).
Proof.
  induction Ls as [| x Ls IH]; intros st Hmem.
  - exists st. simpl. split; [reflexivity |]. split; [| reflexivity].
    intros x q ms Hx _. exists q. auto.
  - destruct (Hmem x) as (q & ms & Hx & Hms); [left |].
    destruct (MemFacts.log_is_Some ms q e Hms) as [q1 Hq1].
    set (st1 := <[x := MemLogger q1 ms]> st).
    assert (Hstep : log (S n) x e st = Some (st1, [(x, e)])).
    { cbn [log]. rewrite Hx, Hq1. reflexivity. }
    destruct (IH st1) as (st' & Hrun & Hcnt & Hother).
    { intros y Hy. destruct (decide (y = x)) as [-> | Hne].
      - exists q1, ms. split; [apply lookup_insert_eq | exact Hms].
      - destruct (Hmem y) as (qy & my & Hy' & Hmy); [right; exact Hy |].
        exists qy, my. split; [| exact Hmy].
        unfold st1. rewrite lookup_insert_ne by congruence. exact Hy'. }
    exists st'. split; [| split].
    + cbn [log_each map]. rewrite Hstep, Hrun. reflexivity.
    + intros z qz mz Hz Hmz. cbn [count_occ].
      destruct (Nat.eq_dec x z) as [Heq | Hne].
      * subst z. rewrite Hx in Hz. injection Hz as <- <-.
        cbn [mem_log_times]. rewrite Hq1.
        apply Hcnt; [apply lookup_insert_eq | exact Hms].
      * apply Hcnt; [| exact Hmz].
        unfold st1. rewrite lookup_insert_ne by congruence. exact Hz.
    + intros y Hy. apply not_elem_of_cons in Hy as [Hne Hy].
      rewrite (Hother y Hy). unfold st1.
      rewrite lookup_insert_ne by congruence. reflexivity.
Qed.

(** [n] calls of [MemLogger::log] with one record, written out. *)
Lemma mem_log_times_suffix (c : nat) (ms : Z) (e : Entry) :
  forall q q', mem_log_times c ms q e = Some q' ->
  exists old, q ++ replicate c e = old ++ q'.
Proof.
  induction c as [| c IH]; intros q q'; cbn [mem_log_times replicate].
  - intros [= <-]. exists []. rewrite app_nil_r. reflexivity.
  - destruct (Mem.log ms q e) as [q1 |] eqn:H1; [| discriminate].
    intros Hrest. unfold Mem.log in H1.
    destruct (MemFacts.evict_suffix _ _ _ H1) as [old1 Hold1].
    destruct (IH q1 q' Hrest) as [old2 Hold2].
    exists (old1 ++ old2).
    rewrite (cons_middle e q), app_assoc, Hold1, <- !app_assoc, Hold2.
    reflexivity.
Qed.

Lemma mem_log_times_unbounded (c : nat) (e : Entry) :
  forall q, mem_log_times c (-1) q e = Some (q ++ replicate c e).
Proof.
  induction c as [| c IH]; intros q; cbn [mem_log_times replicate].
  - rewrite app_nil_r. reflexivity.
  - rewrite MemFacts.log_unbounded, IH, <- app_assoc. reflexivity.
Qed.

Lemma mem_log_times_drop (c : nat) (ms : Z) (e : Entry) :
  0 <= ms ->
  forall q, Z.of_nat (length q + S c) <= INT_MAX ->
  mem_log_times (S c) ms q e
  = Some (drop (length q + S c - Z.to_nat ms) (q ++ replicate (S c) e)).
Proof.
  intros Hms. induction c as [| c IH]; intros q Hq.
  - cbn [mem_log_times replicate]. rewrite MemFacts.log_drop by lia.
    reflexivity.
  - change (mem_log_times (S (S c)) ms q e)
      with (match Mem.log ms q e with
            | Some q1 => mem_log_times (S c) ms q1 e
            | None => None
            end).
    rewrite MemFacts.log_drop by lia.
    set (d := (length q + 1 - Z.to_nat ms)%nat).
    assert (Hd : (d <= length (q ++ [e]))%nat)
      by (rewrite length_app; simpl; lia).
    assert (Hl : length (drop d (q ++ [e])) = (length q + 1 - d)%nat)
      by (rewrite length_drop, length_app; simpl; lia).
    rewrite IH by lia. f_equal.
    rewrite <- (drop_app_le (q ++ [e]) (replicate (S c) e) d Hd).
    rewrite drop_drop, Hl, <- app_assoc. f_equal. lia.
Qed.

(** C7: [MultiLogger::log] invokes [log] with the same record on each
    of its downstream sinks, in the order of [Ls], each invocation
    running on the heap the previous one left.  When the downstream
    sinks are MemLoggers, the invocations are exactly one per entry of
    [Ls], in that order, and afterwards the deque of each of them is its
    old deque with the record appended once per occurrence in [Ls] (once
    when [Ls] has no repetition), less what the capacity evicted from
    the head: all of it is there with capacity [-1], the last
    [max_size] records with a capacity [max_size >= 0]; everything
    else is unchanged. *)
Theorem multilogger_fanout (st : gmap addr Logger) (a : addr)
    (Ls : list addr) (e : Entry) (fuel : nat)
    (Ha : st !! a = Some (MultiLogger Ls)) :
  (forall st' t, log (S fuel) a e st = Some (st', t)
     <-> exists t', t = (a, e) :: t' /\ fanout (log fuel) e Ls st st' t')
  /\ ((forall x, x ∈ Ls -> is_mem st x) ->
      exists st',
        log (S (S fuel)) a e st = Some (st', (a, e) :: map (fun x => (x, e)) Ls)
        /\ (forall x q ms, x ∈ Ls -> st !! x = Some (MemLogger q ms) ->
              let c := count_occ Nat.eq_dec Ls x in
              exists q',
                mem_log_times c ms q e = Some q'
                /\ st' !! x = Some (MemLogger q' ms)
                /\ (1 <= c)%nat /\ (NoDup Ls -> c = 1%nat)
                /\ (exists old, q ++ replicate c e = old ++ q')
                /\ (ms = -1 -> q' = q ++ replicate c e)
                /\ (0 <= ms -> Z.of_nat (length q + c) <= INT_MAX ->
                    q' = drop (length q + c - Z.to_nat ms)
                              (q ++ replicate c e)))
        /\ (forall y, y ∉ Ls -> st' !! y = st !! y)).
Proof.
  split.
  - intros st' t. cbn [log]. rewrite Ha. split.
    + destruct (log_each (log fuel) Ls e st) as [[st2 t2] |] eqn:Hr;
        [| discriminate].
      simpl. intros [= <- <-]. exists t2. split; [reflexivity |].
      apply log_each_fanout, Hr.
    + intros (t' & -> & Hf). apply log_each_fanout in Hf. rewrite Hf.
      reflexivity.
  - intros Hmem.
    destruct (log_each_mem fuel e Ls st Hmem) as (st' & Hrun & Hcnt & Hother).
    exists st'. split; [| split].
    + cbn [log]. rewrite Ha. cbn [log] in Hrun. rewrite Hrun. reflexivity.
    + intros x q ms Hin Hx c.
      destruct (Hmem x Hin) as (q0 & m0 & Hx0 & Hm0).
      rewrite Hx in Hx0. injection Hx0 as <- <-.
      destruct (Hcnt x q ms Hx Hm0) as (q' & Htimes & Hx').
      fold c in Htimes.
      assert (Hc : (1 <= c)%nat).
      { pose proof (proj1 (list_elem_of_In Ls x) Hin) as HIn.
        apply (count_occ_In Nat.eq_dec) in HIn. unfold c. lia. }
      exists q'. split; [exact Htimes |]. split; [exact Hx' |].
      split; [exact Hc |]. split; [| split; [| split]].
      * intros Hnd. apply NoDup_ListNoDup in Hnd.
        apply (proj1 (NoDup_count_occ' Nat.eq_dec Ls) Hnd).
        apply list_elem_of_In, Hin.
      * apply (mem_log_times_suffix c ms e q q' Htimes).
      * intros ->. rewrite mem_log_times_unbounded in Htimes. congruence.
      * intros Hms Hlen. destruct c as [| c']; [lia |].
        rewrite (mem_log_times_drop c' ms e Hms q Hlen) in Htimes.
        congruence.
    + exact Hother.
Qed.

(** Three MemLoggers (capacities unbounded, 1 and 0) behind a
    MultiLogger at address 3. *)
Definition three_mems : gmap addr Logger :=
  <[0%nat := MemLogger [] (-1)]>
  (<[1%nat := MemLogger [rec 5] 1]>
  (<[2%nat := MemLogger [] 0]>
  (<[3%nat := MultiLogger [0; 1; 2]%nat]> ∅))).

Example multilogger_run :
  (r ← log 2 3%nat (rec 7) three_mems;
   Some (r.2, r.1 !! 0%nat, r.1 !! 1%nat, r.1 !! 2%nat))
  = Some ([(3, rec 7); (0, rec 7); (1, rec 7); (2, rec 7)]%nat,
          Some (MemLogger [rec 7] (-1)),
          Some (MemLogger [rec 7] 1),
          Some (MemLogger [] 0)).
Proof. vm_compute. reflexivity. Qed.

Lemma multilogger_fanout_witness :
  exists st',
    log 2 3%nat (rec 7) three_mems
    = Some (st', [(3, rec 7); (0, rec 7); (1, rec 7); (2, rec 7)]%nat)
    /\ st' !! 0%nat = Some (MemLogger [rec 7] (-1))
    /\ st' !! 1%nat = Some (MemLogger [rec 7] 1).
Proof.
  assert (Ha : three_mems !! 3%nat = Some (MultiLogger [0; 1; 2]%nat))
    by (vm_compute; reflexivity).
  destruct (proj2 (multilogger_fanout three_mems 3%nat _ (rec 7) 0 Ha))
    as (st' & Hrun & Hq & _).
  - intros x Hx. unfold is_mem.
    rewrite !elem_of_cons in Hx.
    destruct Hx as [-> | [-> | [-> | Hx]]].
    + exists [], (-1). split; [vm_compute; reflexivity | right; reflexivity].
    + exists [rec 5], 1. split; [vm_compute; reflexivity | left; lia].
    + exists [], 0. split; [vm_compute; reflexivity | left; lia].
    + apply not_elem_of_nil in Hx. destruct Hx.
  - exists st'. split; [exact Hrun |]. split.
    + destruct (Hq 0%nat [] (-1)) as (q' & _ & Hst & _ & _ & _ & Hall & _);
        [rewrite !elem_of_cons; auto | vm_compute; reflexivity |].
      rewrite Hst, (Hall eq_refl). reflexivity.
    + destruct (Hq 1%nat [rec 5] 1) as (q' & _ & Hst & _ & _ & _ & _ & Hdrop);
        [rewrite !elem_of_cons; auto | vm_compute; reflexivity |].
      rewrite Hst, Hdrop by (vm_compute; discriminate || lia). reflexivity.
Defined.
(** *** The sink graph is fixed *)

(** Two objects of the same class with the same wiring and
    configuration: only the records of a MemLogger and the text of a
    FileLogger may differ. *)
Definition same_shape (o o' : Logger) : Prop :=
  match o, o' with
  | MultiLogger Ls, MultiLogger Ls' => Ls = Ls'
  | FilteringLogger L f, FilteringLogger L' f' => L = L' /\ f = f'
  | MemLogger _ ms, MemLogger _ ms' => ms = ms'
  | FileLogger _ fmt ac, FileLogger _ fmt' ac' => fmt = fmt' /\ ac = ac'
  | _, _ => False
  end.

Definition same_graph (st st' : gmap addr Logger) : Prop :=
  forall a, match st !! a, st' !! a with
            | Some o, Some o' => same_shape o o'
            | None, None => True
            | _, _ => False
            end.

Lemma same_shape_refl o : same_shape o o.
Proof. destruct o; simpl; auto. Qed.

Lemma same_shape_trans o1 o2 o3 :
  same_shape o1 o2 -> same_shape o2 o3 -> same_shape o1 o3.
Proof.
  destruct o1, o2, o3; simpl; try tauto; try congruence.
  - intros [-> ->] [-> ->]. auto.
  - intros [-> ->] [-> ->]. auto.
Qed.

Lemma same_graph_refl st : same_graph st st.
Proof. intros a. destruct (st !! a); [apply same_shape_refl | exact I]. Qed.

Lemma same_graph_trans st1 st2 st3 :
  same_graph st1 st2 -> same_graph st2 st3 -> same_graph st1 st3.
Proof.
  intros H12 H23 a. specialize (H12 a). specialize (H23 a).
  destruct (st1 !! a), (st2 !! a), (st3 !! a); try tauto.
  eapply same_shape_trans; eauto.
Qed.

Lemma same_graph_update st a o o' :
  st !! a = Some o -> same_shape o o' -> same_graph st (<[a := o']> st).
Proof.
  intros Ha Hs b. destruct (decide (a = b)) as [<- | Hne].
  - rewrite Ha, lookup_insert_eq. exact Hs.
  - rewrite lookup_insert_ne by exact Hne.
    destruct (st !! b); [apply same_shape_refl | exact I].
Qed.

(** What a [log] call leaves behind, with [dispatch] for the nested
    calls. *)
Definition keeps_graph (e : Entry)
    (dispatch : addr -> Entry -> gmap addr Logger -> option result) : Prop :=
  forall a st r, dispatch a e st = Some r ->
    same_graph st r.1
    /\ Forall (fun c => c.2 = e /\ is_Some (st !! c.1)) r.2.

Lemma live_in_same_graph st st' x :
  same_graph st st' -> is_Some (st' !! x) -> is_Some (st !! x).
Proof.
  intros H Hx. specialize (H x). destruct Hx as [o Ho]. rewrite Ho in H.
  destruct (st !! x); [eauto | destruct H].
Qed.

Lemma log_each_keeps e dispatch Ls :
  keeps_graph e dispatch ->
  forall st r, log_each dispatch Ls e st = Some r ->
    same_graph st r.1
    /\ Forall (fun c => c.2 = e /\ is_Some (st !! c.1)) r.2.
Proof.
  intros Hd. induction Ls as [| x Ls IH]; intros st r; cbn [log_each].
  - intros [= <-]. split; [apply same_graph_refl | constructor].
  - destruct (dispatch x e st) as [[st1 t1] |] eqn:Hx; [| discriminate].
    destruct (log_each dispatch Ls e st1) as [[st2 t2] |] eqn:Hr;
      [| discriminate].
    intros [= <-]. cbn [fst snd].
    destruct (Hd x st _ Hx) as [Hg1 Ht1].
    destruct (IH st1 _ Hr) as [Hg2 Ht2]. cbn [fst snd] in *.
    split; [eapply same_graph_trans; eauto |].
    apply Forall_app. split; [exact Ht1 |].
    eapply Forall_impl; [exact Ht2 |]. intros c [Hc Hl].
    split; [exact Hc |]. eapply live_in_same_graph; eauto.
Qed.

Lemma log_keeps e fuel : keeps_graph e (log fuel).
Proof.
  induction fuel as [| n IH]; intros a st r; cbn [log]; [discriminate |].
  destruct (st !! a) as [[Ls | L f | q ms | file fmt ac] |] eqn:Ha;
    [| | | | discriminate].
  - destruct (log_each (log n) Ls e st) as [r' |] eqn:Hr; [| discriminate].
    intros [= <-]. destruct (log_each_keeps e (log n) Ls IH st r' Hr) as [Hg Ht].
    split; [exact Hg |]. constructor; [| exact Ht].
    simpl. split; [reflexivity | rewrite Ha; eauto].
  - destruct (f e).
    + destruct (log n L e st) as [r' |] eqn:Hr; [| discriminate].
      intros [= <-]. destruct (IH L st r' Hr) as [Hg Ht].
      split; [exact Hg |]. constructor; [| exact Ht].
      simpl. split; [reflexivity | rewrite Ha; eauto].
    + intros [= <-]. split; [apply same_graph_refl |].
      constructor; [| constructor].
      simpl. split; [reflexivity | rewrite Ha; eauto].
  - destruct (Mem.log ms q e) as [q' |]; [| discriminate].
    intros [= <-]. cbn [fst snd].
    split; [apply (same_graph_update st a _ _ Ha); reflexivity |].
    constructor; [| constructor].
    simpl. split; [reflexivity | rewrite Ha; eauto].
  - intros [= <-]. cbn [fst snd].
    split; [apply (same_graph_update st a _ _ Ha); simpl; auto |].
    constructor; [| constructor].
    simpl. split; [reflexivity | rewrite Ha; eauto].
Qed.

(** Logging never rewires the graph: every sink keeps its class, its
    downstream sinks, its predicate, formatter, [autoclose] flag and
    capacity, and no sink appears or disappears; and every sink that is
    invoked exists and is given the very record that was logged. *)
Theorem log_keeps_graph (fuel : nat) (a : addr) (e : Entry)
    (st : gmap addr Logger) (r : result)
    (Hlog : log fuel a e st = Some r) :
  same_graph st r.1
  /\ dom r.1 = dom st
  /\ (forall x e', (x, e') ∈ r.2 -> e' = e /\ is_Some (st !! x)).
Proof.
  destruct (log_keeps e fuel a st r Hlog) as [Hg Ht].
  split; [exact Hg |]. split.
  - apply set_eq. intros x. rewrite !elem_of_dom. specialize (Hg x).
    destruct (st !! x), (r.1 !! x); try tauto;
      split; intros [? ?]; try discriminate; eauto.
  - intros x e' Hin. rewrite Forall_forall in Ht. apply (Ht (x, e') Hin).
Qed.

Lemma log_keeps_graph_witness :
  exists r, log 2 3%nat (rec 7) three_mems = Some r
            /\ dom r.1 = dom three_mems.
Proof.
  destruct (log 2 3%nat (rec 7) three_mems) as [r |] eqn:Hlog;
    [| vm_compute in Hlog; discriminate].
  exists r. split; [reflexivity |].
  apply (log_keeps_graph 2 3%nat (rec 7) three_mems r Hlog).
Defined.

(** *** When logging is defined *)

(** A graph without cycles or dangling handles: every sink refers to
    existing sinks of smaller rank, and every MemLogger has a capacity
    in the documented range. *)
Definition well_ranked (rank : addr -> nat) (st : gmap addr Logger) : Prop :=
  forall a o, st !! a = Some o ->
    match o with
    | MultiLogger Ls =>
        forall x, x ∈ Ls -> is_Some (st !! x) /\ (rank x < rank a)%nat
    | FilteringLogger L _ => is_Some (st !! L) /\ (rank L < rank a)%nat
    | MemLogger _ ms => 0 <= ms \/ ms = -1
    | FileLogger _ _ _ => True
    end.

Lemma well_ranked_same_graph rank st st' :
  same_graph st st' -> well_ranked rank st -> well_ranked rank st'.
Proof.
  intros Hg Hw a o' Ha.
  assert (Hlive : forall x, is_Some (st !! x) -> is_Some (st' !! x)).
  { intros x [o Hx]. specialize (Hg x). rewrite Hx in Hg.
    destruct (st' !! x); [eauto | destruct Hg]. }
  pose proof (Hg a) as Hga. rewrite Ha in Hga.
  destruct (st !! a) as [o |] eqn:Hoa; [| destruct Hga].
  specialize (Hw a o Hoa).
  destruct o, o'; simpl in Hga; try destruct Hga; subst; simpl in *; auto.
  - intros x Hx. destruct (Hw x Hx). auto.
  - destruct Hw. auto.
Qed.

Lemma log_each_defined rank e n Ls :
  (forall a st, well_ranked rank st -> is_Some (st !! a) ->
     (rank a < n)%nat -> is_Some (log n a e st)) ->
  forall st, well_ranked rank st ->
    (forall x, x ∈ Ls -> is_Some (st !! x) /\ (rank x < n)%nat) ->
    is_Some (log_each (log n) Ls e st).
Proof.
  intros IH. induction Ls as [| x Ls IHl]; intros st Hw Hall; cbn [log_each].
  - eauto.
  - destruct (Hall x) as [Hx Hr]; [left |].
    destruct (IH x st Hw Hx Hr) as [[st1 t1] Hlog]. rewrite Hlog.
    destruct (log_keeps e n x st _ Hlog) as [Hg _]. cbn [fst] in Hg.
    destruct (IHl st1) as [[st2 t2] Hrest].
    + eapply well_ranked_same_graph; eauto.
    + intros y Hy. destruct (Hall y) as [[o Ho] Hry]; [right; exact Hy |].
      split; [| exact Hry]. specialize (Hg y). rewrite Ho in Hg.
      destruct (st1 !! y); [eauto | destruct Hg].
    + rewrite Hrest. eauto.
Qed.

(** On a graph of existing sinks without cycles, whose MemLoggers have
    a capacity [>= 0] or [-1], [log] is defined: it returns, with no
    null or dangling handle followed and no empty deque popped, as soon
    as the bound on the nesting exceeds the rank of the sink. *)
Theorem log_defined (rank : addr -> nat) (fuel : nat) (a : addr) (e : Entry)
    (st : gmap addr Logger)
    (Hgraph : well_ranked rank st) (Hlive : is_Some (st !! a))
    (Hfuel : (rank a < fuel)%nat) :
  is_Some (log fuel a e st).
Proof.
  revert a st Hgraph Hlive Hfuel.
  induction fuel as [| n IH]; intros a st Hw [o Ha] Hr; [lia |].
  cbn [log]. rewrite Ha. pose proof (Hw a o Ha) as Ho.
  destruct o as [Ls | L f | q ms | file fmt ac]; simpl in Ho.
  - destruct (log_each_defined rank e n Ls IH st Hw) as [r Hlog].
    + intros x Hx. destruct (Ho x Hx). split; [assumption | lia].
    + rewrite Hlog. simpl. eauto.
  - destruct (f e); [| eauto]. destruct Ho as [HL HrL].
    destruct (IH L st Hw HL ltac:(lia)) as [r Hlog]. rewrite Hlog. simpl. eauto.
  - destruct (MemFacts.log_is_Some ms q e Ho) as [q' Hq]. rewrite Hq. eauto.
  - eauto.
Qed.

Lemma log_defined_witness : is_Some (log 2 3%nat (rec 7) three_mems).
Proof.
  apply (log_defined (fun a => if decide (a = 3%nat) then 1%nat else 0%nat)).
  - intros a o Ha. unfold three_mems in Ha.
    repeat match type of Ha with
           | <[?k := _]> _ !! a = _ =>
               destruct (decide (k = a)) as [<- | ?];
               [rewrite lookup_insert_eq in Ha; injection Ha as <-
               | rewrite lookup_insert_ne in Ha by assumption]
           end;
      try (rewrite lookup_empty in Ha; discriminate); simpl; try lia.
    intros x Hx. rewrite !elem_of_cons in Hx.
    destruct Hx as [-> | [-> | [-> | Hx]]];
      try (split; [vm_compute; eauto | simpl; lia]).
    apply not_elem_of_nil in Hx. destruct Hx.
  - vm_compute. eauto.
  - simpl. lia.
Defined.

(** A MultiLogger that lists itself never returns from [log]: whatever
    the bound on the nesting, the recursion exhausts it. *)
Theorem self_fanout_diverges (fuel : nat) (a : addr) (Ls : list addr)
    (e : Entry) (st : gmap addr Logger)
    (Ha : st !! a = Some (MultiLogger (a :: Ls))) :
  log fuel a e st = None.
Proof.
  induction fuel as [| n IH]; [reflexivity |].
  cbn [log]. rewrite Ha. cbn [log_each]. rewrite IH. reflexivity.
Qed.

Lemma self_fanout_diverges_witness :
  log 5 0%nat (rec 1) {[ 0%nat := MultiLogger [0%nat] ]} = None.
Proof.
  apply (self_fanout_diverges 5 0%nat [] (rec 1)). apply lookup_singleton_eq.
Defined.

End SinkFacts.

(** ** Reference-counted handles *)

Module RefFacts.
Import Refcount.

(** *** Counting the handles of an object *)

Lemma holders_le_size (rs : gmap hid (option addr)) a :
  (holders rs a <= size rs)%nat.
Proof. apply map_size_filter. Qed.

Lemma holders_insert_fresh (rs : gmap hid (option addr)) x p a :
  rs !! x = None ->
  holders (<[x := p]> rs) a
  = (holders rs a + if decide (p = Some a) then 1 else 0)%nat.
Proof.
  intros Hx. unfold holders. rewrite map_filter_insert. simpl.
  case_decide as Hp.
  - rewrite map_size_insert_None; [lia |].
    apply map_lookup_filter_None. left. exact Hx.
  - rewrite delete_id by exact Hx. lia.
Qed.

Lemma holders_delete (rs : gmap hid (option addr)) x p a :
  rs !! x = Some p ->
  holders rs a
  = (holders (delete x rs) a + if decide (p = Some a) then 1 else 0)%nat.
Proof.
  intros Hx.
  rewrite <- (insert_id rs x p Hx) at 1.
  rewrite <- insert_delete_eq.
  apply holders_insert_fresh, lookup_delete_eq.
Qed.

Lemma holders_zero (rs : gmap hid (option addr)) a :
  holders rs a = 0%nat <-> forall y, rs !! y <> Some (Some a).
Proof.
  unfold holders. rewrite map_size_empty_iff, map_empty_filter.
  unfold map_Forall. simpl. split.
  - intros H y Hy. exact (H y _ Hy eq_refl).
  - intros H y p Hy ->. exact (H y Hy).
Qed.

(** *** Well-formed heaps *)

(** The count of every live object is the number of live handles that
    point to it, and every handle points to a live object. *)
Definition counted (h : heap) : Prop :=
  forall a rc, objs h !! a = Some rc -> rc = Z.of_nat (holders (refs h) a).

Definition no_dangling (h : heap) : Prop :=
  forall x a, refs h !! x = Some (Some a) -> is_Some (objs h !! a).

Definition wf (h : heap) : Prop := counted h /\ no_dangling h.

Lemma wf_empty : wf empty_heap.
Proof.
  split.
  - intros a rc H. simpl in H. rewrite lookup_empty in H. discriminate.
  - intros x a H. simpl in H. rewrite lookup_empty in H. discriminate.
Qed.

Lemma new_wf a h h' :
  wf h -> new_object a h = Some h' -> wf h' /\ refs h' = refs h.
Proof.
  intros [Hc Hd]. unfold new_object.
  destruct (objs h !! a) eqn:Ha; [discriminate |]. intros [= <-].
  split; [| reflexivity]. split.
  - intros b rc. simpl. destruct (decide (a = b)) as [<- | Hne].
    + rewrite lookup_insert_eq. intros [= <-].
      assert (Hz : holders (refs h) a = 0%nat); [| rewrite Hz; reflexivity].
      apply holders_zero. intros y Hy. apply Hd in Hy as [? Hy]. congruence.
    + rewrite lookup_insert_ne by exact Hne. apply Hc.
  - intros x b Hx. simpl in *. destruct (decide (a = b)) as [<- | Hne].
    + rewrite lookup_insert_eq. eauto.
    + rewrite lookup_insert_ne by exact Hne. eapply Hd, Hx.
Qed.

Lemma ctor_wf x p h h' :
  wf h -> Z.of_nat (size (refs h)) < INT_MAX ->
  Ref_ctor x p h = Some h' ->
  wf h' /\ size (refs h') = S (size (refs h)).
Proof.
  intros [Hc Hd] Hsz. unfold Ref_ctor.
  destruct (refs h !! x) eqn:Hx; [discriminate |].
  destruct p as [b |]; simpl.
  - destruct (objs h !! b) as [rc |] eqn:Hb; [| discriminate].
    simpl. intros [= <-]. simpl.
    split; [| apply map_size_insert_None, Hx]. split.
    + intros a rc'. simpl. rewrite holders_insert_fresh by exact Hx.
      destruct (decide (b = a)) as [<- | Hne].
      * rewrite lookup_insert_eq. intros [= <-].
        rewrite decide_True by reflexivity.
        pose proof (Hc b rc Hb) as ->.
        pose proof (holders_le_size (refs h) b).
        rewrite to_int_id by (unfold INT_MIN, INT_MAX in *; lia). lia.
      * rewrite lookup_insert_ne by exact Hne.
        rewrite decide_False by congruence. intros H.
        rewrite (Hc a rc' H). f_equal. lia.
    + intros y a. simpl. destruct (decide (x = y)) as [<- | Hne].
      * rewrite lookup_insert_eq. intros [= <-]. rewrite lookup_insert_eq. eauto.
      * rewrite lookup_insert_ne by exact Hne. intros Hy.
        apply Hd in Hy as [rc' Hy].
        destruct (decide (b = a)) as [<- | Hne'].
        -- rewrite lookup_insert_eq. eauto.
        -- rewrite lookup_insert_ne by exact Hne'. eauto.
  - intros [= <-]. simpl.
    split; [| apply map_size_insert_None, Hx]. split.
    + intros a rc H. simpl in *. rewrite holders_insert_fresh by exact Hx.
      rewrite decide_False by discriminate. rewrite (Hc a rc H). f_equal. lia.
    + intros y a. simpl. destruct (decide (x = y)) as [<- | Hne].
      * rewrite lookup_insert_eq. discriminate.
      * rewrite lookup_insert_ne by exact Hne. apply Hd.
Qed.

Lemma dtor_wf x h h' :
  wf h -> Z.of_nat (size (refs h)) <= INT_MAX ->
  Ref_dtor x h = Some h' ->
  wf h' /\ size (refs h') = pred (size (refs h)).
Proof.
  intros [Hc Hd] Hsz. unfold Ref_dtor.
  destruct (refs h !! x) as [p |] eqn:Hx; [| discriminate]. simpl.
  assert (Hsize : size (delete x (refs h)) = pred (size (refs h)))
    by (apply map_size_delete_Some; eauto).
  destruct p as [b |]; simpl.
  - destruct (objs h !! b) as [rc |] eqn:Hb; [| discriminate]. simpl.
    pose proof (Hc b rc Hb) as Hrc.
    pose proof (holders_delete (refs h) x (Some b) b Hx) as Hdel.
    rewrite decide_True in Hdel by reflexivity.
    pose proof (holders_le_size (refs h) b) as Hle.
    rewrite to_int_id by (unfold INT_MIN, INT_MAX in *; lia).
    assert (Hother : forall a, a <> b ->
              holders (delete x (refs h)) a = holders (refs h) a).
    { intros a Hne. rewrite (holders_delete (refs h) x (Some b) a Hx).
      rewrite decide_False by congruence. lia. }
    destruct (Z.eqb_spec (rc - 1) 0) as [Hz | Hnz]; intros [= <-]; simpl;
      (split; [| exact Hsize]); split.
    + intros a rc'. simpl. destruct (decide (b = a)) as [<- | Hne].
      * rewrite lookup_delete_eq. discriminate.
      * rewrite lookup_delete_ne by exact Hne. intros H.
        rewrite Hother by congruence. apply Hc, H.
    + intros y a. simpl. destruct (decide (x = y)) as [<- | Hne].
      * rewrite lookup_delete_eq. discriminate.
      * rewrite lookup_delete_ne by exact Hne. intros Hy.
        destruct (decide (b = a)) as [<- | Hne'].
        -- exfalso. assert (Hz' : holders (delete x (refs h)) b = 0%nat) by lia.
           apply (proj1 (holders_zero _ _) Hz' y).
           rewrite lookup_delete_ne by exact Hne. exact Hy.
        -- rewrite lookup_delete_ne by exact Hne'. eapply Hd, Hy.
    + intros a rc'. simpl. destruct (decide (b = a)) as [<- | Hne].
      * rewrite lookup_insert_eq. intros [= <-]. lia.
      * rewrite lookup_insert_ne by exact Hne. intros H.
        rewrite Hother by congruence. apply Hc, H.
    + intros y a. simpl. destruct (decide (x = y)) as [<- | Hne].
      * rewrite lookup_delete_eq. discriminate.
      * rewrite lookup_delete_ne by exact Hne. intros Hy.
        apply Hd in Hy as [rc' Hy].
        destruct (decide (b = a)) as [<- | Hne'].
        -- rewrite lookup_insert_eq. eauto.
        -- rewrite lookup_insert_ne by exact Hne'. eauto.
  - intros [= <-]. simpl. split; [| exact Hsize]. split.
    + intros a rc H. simpl in *.
      rewrite (Hc a rc H). rewrite (holders_delete (refs h) x None a Hx).
      rewrite decide_False by discriminate. f_equal. lia.
    + intros y a. simpl. destruct (decide (x = y)) as [<- | Hne].
      * rewrite lookup_delete_eq. discriminate.
      * rewrite lookup_delete_ne by exact Hne. apply Hd.
Qed.

Lemma holders_insert (rs : gmap hid (option addr)) x p p' a :
  rs !! x = Some p ->
  (holders (<[x := p']> rs) a + (if decide (p = Some a) then 1 else 0)
   = holders rs a + (if decide (p' = Some a) then 1 else 0))%nat.
Proof.
  intros Hx. rewrite <- insert_delete_eq.
  rewrite holders_insert_fresh by apply lookup_delete_eq.
  rewrite (holders_delete rs x p a Hx). lia.
Qed.

Lemma swap_wf x y h h' :
  wf h -> Ref_swap x y h = Some h' ->
  wf h' /\ size (refs h') = size (refs h).
Proof.
  intros [Hc Hd]. unfold Ref_swap.
  destruct (refs h !! x) as [px |] eqn:Hx; [| discriminate]. simpl.
  destruct (refs h !! y) as [py |] eqn:Hy; [| discriminate]. simpl.
  intros [= <-]. simpl.
  assert (Hx1 : <[y := px]> (refs h) !! x = Some (if decide (y = x) then px else px)).
  { case_decide; [subst; apply lookup_insert_eq |].
    rewrite lookup_insert_ne by assumption. exact Hx. }
  assert (Hx1' : <[y := px]> (refs h) !! x = Some px)
    by (rewrite Hx1; case_decide; reflexivity).
  split; [split |].
  - intros a rc H. simpl in *. rewrite (Hc a rc H). f_equal.
    pose proof (holders_insert (refs h) y py px a Hy) as H1.
    pose proof (holders_insert (<[y := px]> (refs h)) x px py a Hx1') as H2.
    lia.
  - intros z a. simpl. destruct (decide (x = z)) as [<- | Hne].
    + rewrite lookup_insert_eq. intros [= ->]. eapply Hd, Hy.
    + rewrite lookup_insert_ne by exact Hne.
      destruct (decide (y = z)) as [<- | Hne'].
      * rewrite lookup_insert_eq. intros [= ->]. eapply Hd, Hx.
      * rewrite lookup_insert_ne by exact Hne'. apply Hd.
  - rewrite map_size_insert_Some by eauto.
    rewrite map_size_insert_Some by eauto. reflexivity.
Qed.

(** Assigning [nullptr] is destroying the handle and constructing a
    null one in its place. *)
Lemma assign_null_dtor_ctor x h :
  Ref_assign_null x h = Ref_dtor x h ≫= Ref_ctor x None.
Proof.
  unfold Ref_assign_null, Ref_dtor.
  destruct (refs h !! x) as [p |]; [| reflexivity]. simpl.
  destruct (decref p (objs h)) as [os |]; [| reflexivity]. simpl.
  unfold Ref_ctor. simpl. rewrite lookup_delete_eq. simpl.
  rewrite insert_delete_eq. reflexivity.
Qed.

Lemma assign_null_wf x h h' :
  wf h -> Z.of_nat (size (refs h)) <= INT_MAX ->
  Ref_assign_null x h = Some h' ->
  wf h' /\ size (refs h') = size (refs h).
Proof.
  intros Hwf Hsz. rewrite assign_null_dtor_ctor.
  destruct (Ref_dtor x h) as [h1 |] eqn:H1; [| discriminate]. simpl.
  assert (Hx : is_Some (refs h !! x)).
  { unfold Ref_dtor in H1. destruct (refs h !! x); [eauto | discriminate]. }
  assert (Hpos : (0 < size (refs h))%nat).
  { destruct Hx as [p Hx]. apply Nat.neq_0_lt_0.
    intros Hz. apply map_size_empty_iff in Hz. rewrite Hz in Hx.
    rewrite lookup_empty in Hx. discriminate. }
  destruct (dtor_wf x h h1 Hwf Hsz H1) as [Hwf1 Hs1].
  intros H2. destruct (ctor_wf x None h1 h' Hwf1 ltac:(lia) H2) as [Hwf2 Hs2].
  split; [exact Hwf2 | lia].
Qed.

(** The three steps of an assignment: construct the temporary, swap,
    destroy the temporary. *)
Lemma temp_swap_dtor_wf temp p x y h h' :
  wf h -> Z.of_nat (size (refs h)) < INT_MAX ->
  (h1 ← Ref_ctor temp p h; h2 ← Ref_swap x y h1; Ref_dtor temp h2) = Some h' ->
  wf h' /\ size (refs h') = size (refs h).
Proof.
  intros Hwf Hsz.
  destruct (Ref_ctor temp p h) as [h1 |] eqn:H1; [| discriminate]. simpl.
  destruct (Ref_swap x y h1) as [h2 |] eqn:H2; [| discriminate]. simpl.
  intros H3.
  destruct (ctor_wf _ _ _ _ Hwf Hsz H1) as [Hwf1 Hs1].
  destruct (swap_wf _ _ _ _ Hwf1 H2) as [Hwf2 Hs2].
  destruct (dtor_wf _ _ _ Hwf2 ltac:(lia) H3) as [Hwf3 Hs3].
  split; [exact Hwf3 | lia].
Qed.

Lemma apply_op_wf o h h' k :
  wf h -> (size (refs h) <= k)%nat -> Z.of_nat k < INT_MAX ->
  apply_op o h = Some h' ->
  wf h' /\ (size (refs h') <= S k)%nat.
Proof.
  intros Hwf Hk Hb.
  assert (Hsz : Z.of_nat (size (refs h)) < INT_MAX) by lia.
  destruct o as [a | x p | x other | x y | x other | x u | x | x]; simpl.
  - intros H. destruct (new_wf _ _ _ Hwf H) as [? ->]. split; [assumption | lia].
  - intros H. destruct (ctor_wf _ _ _ _ Hwf Hsz H) as [? ->].
    split; [assumption | lia].
  - unfold Ref_copy. destruct (refs h !! other) as [p |]; [| discriminate].
    simpl. intros H. destruct (ctor_wf _ _ _ _ Hwf Hsz H) as [? ->].
    split; [assumption | lia].
  - intros H. destruct (swap_wf _ _ _ _ Hwf H) as [? ->].
    split; [assumption | lia].
  - unfold Ref_assign. destruct (refs h !! other) as [p |]; [| discriminate].
    simpl. intros H.
    destruct (temp_swap_dtor_wf _ _ _ _ _ _ Hwf Hsz H) as [? ->].
    split; [assumption | lia].
  - unfold Ref_assign_ptr. intros H.
    destruct (temp_swap_dtor_wf _ _ _ _ _ _ Hwf Hsz H) as [? ->].
    split; [assumption | lia].
  - intros H. destruct (assign_null_wf _ _ _ Hwf ltac:(lia) H) as [? ->].
    split; [assumption | lia].
  - intros H. destruct (dtor_wf _ _ _ Hwf ltac:(lia) H) as [? ->].
    split; [assumption | lia].
Qed.

Lemma run_wf ops : forall h h' k,
  wf h -> (size (refs h) <= k)%nat ->
  Z.of_nat (k + length ops) <= INT_MAX ->
  run ops h = Some h' ->
  wf h' /\ (size (refs h') <= k + length ops)%nat.
Proof.
  induction ops as [| o ops IH]; intros h h' k Hwf Hk Hb; simpl.
  - intros [= <-]. split; [assumption | lia].
  - destruct (apply_op o h) as [h1 |] eqn:H1; [| discriminate].
    intros Hrun. simpl in Hb.
    destruct (apply_op_wf o h h1 k Hwf Hk ltac:(lia) H1) as [Hwf1 Hk1].
    destruct (IH h1 h' (S k) Hwf1 Hk1 ltac:(lia) Hrun) as [Hwf' Hk'].
    split; [assumption | lia].
Qed.

(** What releasing a handle (its destruction or the assignment of
    [nullptr]) does to the object it points to. *)
Lemma release_effect x a rc h :
  wf h -> Z.of_nat (size (refs h)) <= INT_MAX ->
  refs h !! x = Some (Some a) -> objs h !! a = Some rc ->
  1 <= rc /\
  decref (Some a) (objs h)
  = Some (if decide (rc = 1) then delete a (objs h)
          else <[a := rc - 1]> (objs h)).
Proof.
  intros [Hc Hd] Hsz Hx Ha.
  pose proof (Hc a rc Ha) as Hrc.
  pose proof (holders_delete (refs h) x (Some a) a Hx) as Hdel.
  rewrite decide_True in Hdel by reflexivity.
  pose proof (holders_le_size (refs h) a) as Hle.
  split; [lia |]. simpl. rewrite Ha.
  rewrite to_int_id by (unfold INT_MIN, INT_MAX in *; lia).
  destruct (Z.eqb_spec (rc - 1) 0); case_decide; try lia; reflexivity.
Qed.


(** The handles of the repository's test program: [Ref<String> s = new
    String(...)], [Ref<String> s2 = s], [s2 = nullptr], [s = nullptr],
    with the counts it prints (1, 2, 1) and the deletion at the end. *)
Definition test_ops : list op :=
  [New 0%nat; Ctor 0%nat (Some 0%nat); Copy 1%nat 0%nat;
   AssignNull 1%nat; AssignNull 0%nat].

Example test_refcounts :
  map (fun n => h ← run (take n test_ops) empty_heap; Some (objs h !! 0%nat))
      [2; 3; 4; 5]%nat
  = [Some (Some 1); Some (Some 2); Some (Some 1); Some None].
Proof. vm_compute. reflexivity. Qed.

Definition two_handles : heap :=
  mkHeap {[ 0%nat := 2 ]} (<[0%nat := Some 0%nat]> {[ 1%nat := Some 0%nat ]}).


(** *** Swap and assignment *)

(** [swap] exchanges the pointers of two handles and touches no count;
    swapping twice restores the heap. *)
Theorem swap_exchanges (x y : hid) (h : heap) (px py : option addr)
    (Hx : refs h !! x = Some px) (Hy : refs h !! y = Some py) :
  exists h',
    Ref_swap x y h = Some h'
    /\ objs h' = objs h
    /\ refs h' !! x = Some py /\ refs h' !! y = Some px
    /\ (forall z, z <> x -> z <> y -> refs h' !! z = refs h !! z)
    /\ Ref_swap x y h' = Some h.
Proof.
  unfold Ref_swap. rewrite Hx, Hy. cbn [mbind option_bind].
  eexists. split; [reflexivity |]. cbn [objs refs].
  assert (Hx' : <[x := py]> (<[y := px]> (refs h)) !! x = Some py)
    by apply lookup_insert_eq.
  assert (Hy' : <[x := py]> (<[y := px]> (refs h)) !! y = Some px).
  { destruct (decide (x = y)) as [-> | Hne].
    - rewrite lookup_insert_eq. congruence.
    - rewrite lookup_insert_ne by exact Hne. apply lookup_insert_eq. }
  split; [reflexivity |]. split; [exact Hx' |]. split; [exact Hy' |]. split.
  - intros z Hzx Hzy. rewrite !lookup_insert_ne by congruence. reflexivity.
  - rewrite Hx', Hy'. cbn [mbind option_bind]. destruct h as [os rs].
    cbn [objs refs] in *. f_equal. f_equal. apply map_eq. intros z.
    destruct (decide (x = z)) as [<- | Hzx]; [rewrite lookup_insert_eq; congruence |].
    rewrite lookup_insert_ne by exact Hzx.
    destruct (decide (y = z)) as [<- | Hzy]; [rewrite lookup_insert_eq; congruence |].
    rewrite !lookup_insert_ne by congruence. reflexivity.
Qed.

Lemma swap_exchanges_witness :
  exists h', Ref_swap 0%nat 1%nat
               (mkHeap {[ 5%nat := 1 ]} (<[0%nat := Some 5%nat]> {[ 1%nat := None ]}))
             = Some h'
             /\ refs h' !! 0%nat = Some None /\ refs h' !! 1%nat = Some (Some 5%nat).
Proof.
  destruct (swap_exchanges 0%nat 1%nat
              (mkHeap {[ 5%nat := 1 ]} (<[0%nat := Some 5%nat]> {[ 1%nat := None ]}))
              (Some 5%nat) None)
    as (h' & Hs & _ & H0 & H1 & _);
    [vm_compute; reflexivity | vm_compute; reflexivity |].
  exists h'. auto.
Defined.

Lemma fresh_handle (rs : gmap hid (option addr)) :
  rs !! fresh (dom rs) = None.
Proof. apply not_elem_of_dom, is_fresh. Qed.

Lemma incref_decref_same (os : gmap addr Z) (a : addr) (rc : Z) :
  os !! a = Some rc -> 1 <= rc < INT_MAX ->
  incref (Some a) os ≫= decref (Some a) = Some os.
Proof.
  intros Ha Hrc. cbn [incref]. rewrite Ha. cbn [mbind option_bind decref].
  rewrite lookup_insert_eq.
  rewrite (to_int_id (rc + 1)) by (unfold INT_MIN, INT_MAX in *; lia).
  replace (rc + 1 - 1) with rc by lia.
  rewrite (to_int_id rc) by (unfold INT_MIN, INT_MAX in *; lia).
  destruct (Z.eqb_spec rc 0); [lia |].
  rewrite insert_insert_eq, insert_id by exact Ha. reflexivity.
Qed.

(** The count of the object a live handle points to is at least one. *)
Lemma pointed_count h x a rc :
  wf h -> refs h !! x = Some (Some a) -> objs h !! a = Some rc ->
  1 <= rc <= Z.of_nat (size (refs h)).
Proof.
  intros [Hc _] Hx Ha. rewrite (Hc a rc Ha).
  pose proof (holders_delete (refs h) x (Some a) a Hx) as Hdel.
  rewrite decide_True in Hdel by reflexivity.
  pose proof (holders_le_size (refs h) a). lia.
Qed.

(** Self-assignment is harmless: [x = x], and [x = u] for the pointer
    [u] that [x] already holds, leave the heap exactly as it was; the
    object is not deleted on the way, even when [x] is its only
    handle. *)
Theorem self_assignment (ops : list op) (h : heap) (x : hid)
    (p : option addr)
    (Hrun : run ops empty_heap = Some h)
    (Hbound : Z.of_nat (length ops) < INT_MAX)
    (Hx : refs h !! x = Some p) :
  Ref_assign x x h = Some h /\ Ref_assign_ptr x p h = Some h.
Proof.
  destruct (run_wf ops empty_heap h 0 wf_empty) as [Hwf Hsz];
    [simpl; rewrite map_size_empty; lia | simpl; lia | exact Hrun |].
  simpl in Hsz.
  pose proof (fresh_handle (refs h)) as Hfresh.
  set (temp := fresh (dom (refs h))) in *.
  assert (Hne : temp <> x) by congruence.
  assert (Hobjs : incref p (objs h) ≫= decref p = Some (objs h)).
  { destruct p as [a |]; [| reflexivity].
    destruct (proj2 Hwf x a Hx) as [rc Ha].
    pose proof (pointed_count h x a rc Hwf Hx Ha).
    apply (incref_decref_same _ a rc Ha). lia. }
  destruct (incref p (objs h)) as [os1 |] eqn:Hinc; [| discriminate].
  cbn [mbind option_bind] in Hobjs.
  assert (Hrefs1 : delete temp (<[x := p]> (<[temp := p]> (<[temp := p]> (refs h))))
                   = refs h).
  { apply map_eq. intros z. destruct (decide (temp = z)) as [<- | Hz].
    - rewrite lookup_delete_eq. congruence.
    - rewrite lookup_delete_ne by exact Hz.
      destruct (decide (x = z)) as [<- | Hxz].
      + rewrite lookup_insert_eq. congruence.
      + rewrite !lookup_insert_ne by congruence. reflexivity. }
  assert (Hrefs2 : delete temp (<[temp := p]> (<[x := p]> (<[temp := p]> (refs h))))
                   = refs h).
  { apply map_eq. intros z. destruct (decide (temp = z)) as [<- | Hz].
    - rewrite lookup_delete_eq. congruence.
    - rewrite lookup_delete_ne by exact Hz.
      rewrite (lookup_insert_ne _ temp z) by exact Hz.
      destruct (decide (x = z)) as [<- | Hxz].
      + rewrite lookup_insert_eq. congruence.
      + rewrite !lookup_insert_ne by congruence. reflexivity. }
  destruct h as [os rs]. cbn [objs refs] in *.
  split.
  - unfold Ref_assign. cbn [refs objs]. rewrite Hx. cbn [mbind option_bind].
    fold temp. unfold Ref_ctor. cbn [refs objs]. rewrite Hfresh, Hinc.
    cbn [mbind option_bind]. unfold Ref_swap. cbn [refs objs].
    rewrite (lookup_insert_ne _ temp x) by exact Hne. rewrite Hx.
    cbn [mbind option_bind]. rewrite lookup_insert_eq.
    cbn [mbind option_bind]. unfold Ref_dtor. cbn [refs objs].
    rewrite (lookup_insert_ne _ x temp) by congruence.
    rewrite lookup_insert_eq.
    cbn [mbind option_bind]. rewrite Hobjs. cbn [mbind option_bind].
    rewrite Hrefs1. reflexivity.
  - unfold Ref_assign_ptr. cbn [refs objs]. fold temp.
    unfold Ref_ctor. cbn [refs objs]. rewrite Hfresh, Hinc.
    cbn [mbind option_bind]. unfold Ref_swap. cbn [refs objs].
    rewrite lookup_insert_eq. cbn [mbind option_bind].
    rewrite (lookup_insert_ne _ temp x) by exact Hne. rewrite Hx.
    cbn [mbind option_bind]. unfold Ref_dtor. cbn [refs objs].
    rewrite lookup_insert_eq.
    cbn [mbind option_bind]. rewrite Hobjs. cbn [mbind option_bind].
    rewrite Hrefs2. reflexivity.
Qed.

Definition one_handle : heap := mkHeap {[ 0%nat := 1 ]} {[ 0%nat := Some 0%nat ]}.

Lemma self_assignment_witness : Ref_assign 0%nat 0%nat one_handle = Some one_handle.
Proof.
  assert (Hrun : run (take 2 test_ops) empty_heap = Some one_handle)
    by (vm_compute; reflexivity).
  assert (Hb : Z.of_nat (length (take 2 test_ops)) < INT_MAX)
    by (vm_compute; reflexivity).
  apply (proj1 (self_assignment _ one_handle 0%nat (Some 0%nat) Hrun Hb eq_refl)).
Defined.

Lemma incref_keeps (p : option addr) (os os1 : gmap addr Z) (a : addr) :
  incref p os = Some os1 -> is_Some (os !! a) -> is_Some (os1 !! a).
Proof.
  destruct p as [b |]; cbn [incref]; [| intros [= <-]; auto].
  destruct (os !! b) eqn:Hb; [| discriminate]. intros [= <-] Ha.
  destruct (decide (b = a)) as [<- | Hne].
  - rewrite lookup_insert_eq. eauto.
  - rewrite lookup_insert_ne by exact Hne. exact Ha.
Qed.

Lemma decref_other (p : option addr) (os os1 : gmap addr Z) (a : addr) :
  decref p os = Some os1 -> p <> Some a -> os1 !! a = os !! a.
Proof.
  destruct p as [b |]; cbn [decref]; [| intros [= <-]; auto].
  destruct (os !! b) eqn:Hb; [| discriminate]. intros H Hne.
  assert (b <> a) by congruence.
  destruct (_ =? _); injection H as <-.
  - apply lookup_delete_ne. assumption.
  - apply lookup_insert_ne. assumption.
Qed.

Lemma incref_other (p : option addr) (os os1 : gmap addr Z) (a : addr) :
  incref p os = Some os1 -> p <> Some a -> os1 !! a = os !! a.
Proof.
  destruct p as [b |]; cbn [incref]; [| intros [= <-]; auto].
  destruct (os !! b) eqn:Hb; [| discriminate]. intros [= <-] Hne.
  apply lookup_insert_ne. congruence.
Qed.


(** A handle on object 0 and a new object 1 that has no handle yet. *)
Definition handle_and_new : heap :=
  mkHeap (<[0%nat := 1]> {[ 1%nat := 0 ]}) {[ 0%nat := Some 0%nat ]}.


End RefFacts.

(** ** AsyncLogger *)

Module AsyncFacts.
Import Async.

Definition rec (n : Z) : Entry := mkEntry 0%float n "ctx" "msg".

(** A schedule: three calls in a row by the program's thread, then the
    worker (thread 1) drains. *)
Definition steps (t : tid) (n : nat) : list event := repeat (Step t) n.

Definition three_calls : list event :=
  Call (rec 1) :: steps 0 10 ++ Call (rec 2) :: steps 2 4
  ++ Call (rec 3) :: steps 3 4.

Example three_calls_return :
  (fun s => (q s, delivered s, worker s, refcount s, threads s))
    <$> exec three_calls (init 1)
  = Some ([rec 1; rec 2; rec 3], [], Some 1%nat, 2,
          [C_done; W_lock; C_done; C_done]).
Proof. vm_compute. reflexivity. Qed.

Example three_calls_drained :
  (fun s => (q s, delivered s, worker s, refcount s, alive s, threads s))
    <$> exec (three_calls ++ steps 1 30) (init 1)
  = Some ([], [rec 1; rec 2; rec 3], None, 1, true,
          [C_done; W_done; C_done; C_done]).
Proof. vm_compute. reflexivity. Qed.

(** The last handle of the program is released while the queue is not
    empty: the object lives until the worker is through. *)
Example released_while_draining :
  (fun s => (q s, delivered s, refcount s, alive s))
    <$> exec (three_calls ++ steps 1 6 ++ [ExtRelease]) (init 1)
  = Some ([rec 1; rec 2; rec 3], [rec 1], 1, true)
  /\ (fun s => (delivered s, refcount s, alive s))
       <$> exec (three_calls ++ steps 1 6 ++ [ExtRelease] ++ steps 1 30) (init 1)
     = Some ([rec 1; rec 2; rec 3], 0, false).
Proof. split; vm_compute; reflexivity. Qed.

(** *** The structural invariant *)

(** What a thread at [p] knows about [q] and [worker]. *)
Definition pc_ok (wk : option tid) (qq : list Entry) (p : pc) : Prop :=
  match p with
  | C_push _ => qq = [] <-> wk = None
  | C_test => qq <> [] /\ (length qq = 1%nat <-> wk = None)
  | C_joinable | C_me | C_capture | C_spawn => length qq = 1%nat /\ wk = None
  | C_join => False
  | C_temp_dtor | C_me_dtor | C_unlock => qq <> [] /\ wk <> None
  | W_lock | W_relock | W_front | W_pop => qq <> []
  | W_unlock e | W_log e | W_in_log e => exists q', qq = e :: q'
  | W_detach => qq = []
  | W_unlock_end => qq = [] /\ wk = None
  | C_lock _ | C_done | W_test | W_release | W_done => True
  end.

(** Thread [t] at [p]: it owns [m] exactly in the critical sections, it
    is the thread of the [worker] handle exactly while it drains. *)
Definition thread_ok (mm wk : option tid) (qq : list Entry) (t : tid) (p : pc)
  : Prop :=
  (holds_lock p = true <-> mm = Some t)
  /\ (draining p = true <-> wk = Some t)
  /\ pc_ok wk qq p.

Record Inv (s : state) : Prop := mkInv {
  inv_threads : forall t p, threads s !! t = Some p ->
                thread_ok (m s) (worker s) (q s) t p;
  inv_idle : m s = None -> (q s = [] <-> worker s = None);
  inv_fifo : enq s = delivered s ++ undelivered s;
  inv_m : forall t, m s = Some t -> (t < length (threads s))%nat;
  inv_worker : forall w, worker s = Some w -> (w < length (threads s))%nat;
  inv_out : forall t e, (t, e) ∈ out s ->
            exists p, threads s !! t = Some p /\ is_caller p = false
}.

Lemma Inv_init n : Inv (init n).
Proof.
  split; simpl; try discriminate; try reflexivity.
  - intros _. split; reflexivity.
  - intros t e H. apply elem_of_nil in H. destruct H.
Qed.

(** Threads other than the one that moves. *)
Lemma other_lock wk qq t t' p :
  t' <> t -> thread_ok None wk qq t' p -> thread_ok (Some t) wk qq t' p.
Proof.
  intros Hne (Hl & Hd & Hp). split; [| split; assumption].
  split; intros H; [apply Hl in H; discriminate | congruence].
Qed.

Lemma other_unlock wk qq t t' p :
  t' <> t -> thread_ok (Some t) wk qq t' p -> thread_ok None wk qq t' p.
Proof.
  intros Hne (Hl & Hd & Hp). split; [| split; assumption].
  split; intros H; [apply Hl in H; congruence | discriminate].
Qed.

Lemma other_holder wk wk' qq qq' t t' p :
  t' <> t -> thread_ok (Some t) wk qq t' p ->
  (wk' = Some t' <-> wk = Some t') ->
  (draining p = true -> exists l, qq' = qq ++ l) ->
  thread_ok (Some t) wk' qq' t' p.
Proof.
  intros Hne (Hl & Hd & Hp) Hwk Hq.
  assert (Hnl : holds_lock p = false).
  { destruct (holds_lock p); [| reflexivity].
    destruct Hl as [Hl _]. specialize (Hl eq_refl). congruence. }
  split; [exact Hl |]. split; [rewrite Hd, Hwk; reflexivity |].
  destruct p; simpl in *; try discriminate; try exact I;
    destruct (Hq eq_refl) as [l Hl']; subst qq'.
  all: try (destruct Hp as [q' Hq']; subst qq; eexists; reflexivity).
  all: destruct qq; [congruence | discriminate].
Qed.

Lemma lookup_insert_cases (l : list pc) t p t' p' :
  <[t := p]> l !! t' = Some p' ->
  (t' = t /\ p' = p) \/ (t' <> t /\ l !! t' = Some p').
Proof.
  intros H. destruct (decide (t' = t)) as [-> | Hne].
  - left. split; [reflexivity |].
    destruct (decide (t < length l)%nat) as [Hlt | Hge].
    + rewrite list_lookup_insert_eq in H by exact Hlt. congruence.
    + rewrite list_insert_ge in H by lia.
      apply lookup_lt_Some in H. lia.
  - right. split; [exact Hne |].
    rewrite list_lookup_insert_ne in H by congruence. exact H.
Qed.

Lemma lookup_snoc_cases (l : list pc) p t' p' :
  (l ++ [p]) !! t' = Some p' ->
  l !! t' = Some p' \/ (t' = length l /\ p' = p).
Proof.
  intros H. destruct (decide (t' < length l)%nat) as [Hlt | Hge].
  - left. rewrite lookup_app_l in H by exact Hlt. exact H.
  - right. rewrite lookup_app_r in H by lia.
    destruct (t' - length l)%nat eqn:E; simpl in H.
    + split; [lia | congruence].
    + destruct n; discriminate.
Qed.

Lemma in_flight_at ths t p :
  ths !! t = Some p ->
  in_flight (Some t) ths = if delivered_head p then 1%nat else 0%nat.
Proof. intros H. unfold in_flight. rewrite H. reflexivity. Qed.

Lemma in_flight_insert wk ths t p p' :
  ths !! t = Some p ->
  in_flight wk (<[t := p']> ths)
  = if decide (wk = Some t) then (if delivered_head p' then 1%nat else 0%nat)
    else in_flight wk ths.
Proof.
  intros H. pose proof (lookup_lt_Some _ _ _ H) as Hlt.
  case_decide as Hwk.
  - subst wk. unfold in_flight. rewrite list_lookup_insert_eq by exact Hlt.
    reflexivity.
  - destruct wk as [w |]; [| reflexivity]. unfold in_flight.
    rewrite list_lookup_insert_ne by congruence. reflexivity.
Qed.

Lemma in_flight_snoc wk ths p :
  (forall w, wk = Some w -> (w < length ths)%nat) ->
  in_flight wk (ths ++ [p]) = in_flight wk ths.
Proof.
  intros H. destruct wk as [w |]; [| reflexivity]. unfold in_flight.
  rewrite lookup_app_l by (apply H; reflexivity). reflexivity.
Qed.

(** The frame of one statement: thread [t] moves from [p] to [p'], the
    other threads stay where they are. *)
Lemma move_inv s s' t p p' :
  Inv s -> threads s !! t = Some p ->
  threads s' = <[t := p']> (threads s) ->
  is_caller p' = is_caller p ->
  thread_ok (m s') (worker s') (q s') t p' ->
  (forall t' x, t' <> t -> threads s !! t' = Some x ->
     thread_ok (m s') (worker s') (q s') t' x) ->
  (m s' = None -> (q s' = [] <-> worker s' = None)) ->
  enq s' = delivered s' ++ undelivered s' ->
  (forall x, m s' = Some x -> (x < length (threads s))%nat) ->
  (forall x, worker s' = Some x -> (x < length (threads s))%nat) ->
  (forall x e, (x, e) ∈ out s' ->
     (x, e) ∈ out s \/ (x = t /\ is_caller p = false)) ->
  Inv s'.
Proof.
  intros HI Ht Hths Hcall Hnew Hothers Hidle Hfifo Hm Hwk Hout.
  pose proof (lookup_lt_Some _ _ _ Ht) as Hlt.
  split.
  - intros t' x. rewrite Hths. intros Hx.
    apply lookup_insert_cases in Hx as [[-> ->] | [Hne Hx]]; eauto.
  - exact Hidle.
  - exact Hfifo.
  - intros x Hx. rewrite Hths, length_insert. eauto.
  - intros x Hx. rewrite Hths, length_insert. eauto.
  - intros x e Hx. rewrite Hths.
    destruct (Hout x e Hx) as [Hold | [-> Hc]].
    + destruct (inv_out s HI x e Hold) as (px & Hpx & Hcx).
      destruct (decide (x = t)) as [-> | Hne].
      * exists p'. rewrite list_lookup_insert_eq by exact Hlt.
        split; [reflexivity |]. rewrite Hcall. congruence.
      * exists px. rewrite list_lookup_insert_ne by congruence. eauto.
    + exists p'. rewrite list_lookup_insert_eq by exact Hlt.
      split; [reflexivity | congruence].
Qed.

(** The FIFO equation across a statement that leaves [q], [enq], [out]
    and [worker] alone and does not change whether the head is in
    flight. *)
Lemma fifo_same s t p p' :
  Inv s -> threads s !! t = Some p ->
  delivered_head p' = delivered_head p ->
  enq s = delivered s ++ drop (in_flight (worker s) (<[t := p']> (threads s))) (q s).
Proof.
  intros HI Ht Hdh. rewrite (in_flight_insert _ _ _ _ _ Ht).
  case_decide as Hw.
  - rewrite Hdh, <- (in_flight_at _ _ _ Ht), <- Hw. apply (inv_fifo s HI).
  - apply (inv_fifo s HI).
Qed.

Ltac old_ok HI Ht :=
  let Hlk := fresh "Hlk" in
  let Hdr := fresh "Hdr" in
  let Hpc := fresh "Hpc" in
  pose proof (inv_threads _ HI _ _ Ht) as (Hlk & Hdr & Hpc);
  simpl in Hlk, Hdr, Hpc.

(** A statement that touches neither [m], [worker], [q] nor the
    records. *)
Lemma quiet_inv s t p p' rc al :
  Inv s -> threads s !! t = Some p ->
  is_caller p' = is_caller p -> holds_lock p' = holds_lock p ->
  draining p' = draining p -> delivered_head p' = delivered_head p ->
  pc_ok (worker s) (q s) p' ->
  Inv (mkState (q s) (m s) (worker s) rc al (<[t := p']> (threads s))
               (ext s) (enq s) (out s)).
Proof.
  intros HI Ht Hc Hl Hd Hdh Hpc. old_ok HI Ht.
  eapply (move_inv s _ t p p'); simpl; eauto.
  - split; [rewrite Hl; assumption |]. split; [rewrite Hd; assumption |].
    exact Hpc.
  - intros t' x _ Hx. apply (inv_threads s HI t' x Hx).
  - apply (inv_idle s HI).
  - unfold delivered, undelivered. simpl. apply (fifo_same s t p p' HI Ht Hdh).
  - apply (inv_m s HI).
  - apply (inv_worker s HI).
Qed.

Lemma in_flight_le s :
  Inv s -> (in_flight (worker s) (threads s) <= length (q s))%nat.
Proof.
  intros HI. unfold in_flight.
  destruct (worker s) as [w |] eqn:Hw; [| lia].
  destruct (threads s !! w) as [p |] eqn:Hp; [| lia].
  destruct (delivered_head p) eqn:Hd; [| lia].
  pose proof (inv_threads s HI w p Hp) as (_ & _ & Hpc).
  destruct p; try discriminate; simpl in Hpc;
    try (destruct Hpc as [q' ->]; simpl; lia);
    (destruct (q s); [congruence | simpl; lia]).
Qed.

Lemma release_shape s s' :
  release s = Ok s' ->
  exists rc al, s' = mkState (q s) (m s) (worker s) rc al (threads s)
                             (ext s) (enq s) (out s).
Proof.
  unfold release.
  destruct (to_int (refcount s - 1) =? 0).
  - destruct (worker s) eqn:Hw, (m s) eqn:Hm; try discriminate.
    intros [= <-]. eexists _, _. unfold set_alive, set_refcount. simpl.
    rewrite Hw, Hm. reflexivity.
  - intros [= <-]. eexists _, _. reflexivity.
Qed.

Lemma lock_inv s s' t p p' :
  Inv s -> threads s !! t = Some p -> lock t p' s = Ok s' ->
  holds_lock p = false -> holds_lock p' = true ->
  is_caller p' = is_caller p -> draining p' = draining p ->
  delivered_head p' = delivered_head p ->
  (m s = None -> pc_ok (worker s) (q s) p') ->
  Inv s'.
Proof.
  intros HI Ht Hstep Hnl Hl Hc Hd Hdh Hpc. unfold lock in Hstep.
  destruct (m s) eqn:Hm; [discriminate |]. injection Hstep as <-.
  old_ok HI Ht.
  eapply (move_inv s _ t p p'); simpl; eauto.
  - split; [split; auto |]. split; [rewrite Hd; assumption | auto].
  - intros t' x Hne Hx. apply other_lock; [exact Hne |].
    rewrite <- Hm. apply (inv_threads s HI t' x Hx).
  - discriminate.
  - unfold delivered, undelivered. simpl. apply (fifo_same s t p p' HI Ht Hdh).
  - intros x [= <-]. eapply lookup_lt_Some, Ht.
  - apply (inv_worker s HI).
Qed.

Lemma unlock_inv s s' t p p' :
  Inv s -> threads s !! t = Some p -> unlock t p' s = Ok s' ->
  holds_lock p = true -> holds_lock p' = false ->
  is_caller p' = is_caller p -> draining p' = draining p ->
  delivered_head p' = delivered_head p ->
  pc_ok (worker s) (q s) p' ->
  (pc_ok (worker s) (q s) p -> draining p = true \/ worker s <> None
                               \/ (q s = [] /\ worker s = None)) ->
  (pc_ok (worker s) (q s) p -> q s = [] -> worker s = None) ->
  Inv s'.
Proof.
  intros HI Ht Hstep Hl Hnl Hc Hd Hdh Hpc' Hidle1 Hidle2. unfold unlock in Hstep.
  destruct (m s) as [o |] eqn:Hm; [| discriminate].
  case_decide; [subst o | discriminate]. injection Hstep as <-.
  old_ok HI Ht.
  eapply (move_inv s _ t p p'); simpl; eauto.
  - split; [split; [congruence | discriminate] |].
    split; [rewrite Hd; assumption | auto].
  - intros t' x Hne Hx. apply (other_unlock _ _ t); [exact Hne |].
    rewrite <- Hm. apply (inv_threads s HI t' x Hx).
  - intros _. split; [apply Hidle2, Hpc |].
    intros Hw. destruct (Hidle1 Hpc) as [Hdt | [Hne | [Hq _]]].
    + apply Hdr in Hdt. congruence.
    + contradiction.
    + exact Hq.
  - unfold delivered, undelivered. simpl. apply (fifo_same s t p p' HI Ht Hdh).
  - discriminate.
  - apply (inv_worker s HI).
Qed.

Lemma spawn_inv s t rc :
  Inv s -> threads s !! t = Some C_spawn ->
  Inv (mkState (q s) (m s) (Some (length (threads s))) rc (alive s)
               (<[t := C_temp_dtor]> (threads s) ++ [W_lock])
               (ext s) (enq s) (out s)).
Proof.
  intros HI Ht. old_ok HI Ht. destruct Hpc as [Hlen Hwk].
  pose proof (lookup_lt_Some _ _ _ Ht) as Hlt.
  assert (Hm : m s = Some t) by (apply Hlk; reflexivity).
  assert (Hq : q s <> []) by (destruct (q s); [discriminate | congruence]).
  split; simpl.
  - intros t' x Hx. apply lookup_snoc_cases in Hx as [Hx | [-> ->]].
    + apply lookup_insert_cases in Hx as [[-> ->] | [Hne Hx]].
      * split; [split; auto |]. split; [| split; [exact Hq | discriminate]].
        split; [discriminate | intros [= H]; lia].
      * rewrite Hm. apply (other_holder (worker s) _ (q s)); [exact Hne | | |].
        -- rewrite <- Hm. apply (inv_threads s HI t' x Hx).
        -- apply lookup_lt_Some in Hx. rewrite Hwk.
           split; [intros [= H]; lia | discriminate].
        -- intros _. exists []. rewrite app_nil_r. reflexivity.
    + rewrite length_insert.
      split; [split; [discriminate | rewrite Hm; intros [= H]; lia] |].
      split; [split; reflexivity | exact Hq].
  - rewrite Hm. discriminate.
  - unfold delivered, undelivered. simpl. unfold in_flight.
    rewrite lookup_app_r by (rewrite length_insert; lia).
    rewrite length_insert, Nat.sub_diag. simpl.
    pose proof (inv_fifo s HI) as Hf. unfold delivered, undelivered in Hf.
    rewrite Hwk in Hf. exact Hf.
  - intros x Hx. rewrite length_app, length_insert.
    pose proof (inv_m s HI x Hx). lia.
  - intros x [= <-]. rewrite length_app, length_insert. simpl. lia.
  - intros x e Hx. destruct (inv_out s HI x e Hx) as (px & Hpx & Hc).
    exists px. split; [| exact Hc].
    pose proof (lookup_lt_Some _ _ _ Hpx).
    rewrite lookup_app_l by (rewrite length_insert; lia).
    rewrite list_lookup_insert_ne; [exact Hpx |].
    intros <-. rewrite Ht in Hpx. injection Hpx as <-. discriminate.
Qed.

(** Every statement preserves the invariant. *)
Lemma step_pc_inv s s' t p :
  Inv s -> threads s !! t = Some p -> step_pc t p s = Ok s' -> Inv s'.
Proof.
  intros HI Ht Hstep. old_ok HI Ht.
  destruct p; simpl in Hstep.
  - (* C_lock *)
    eapply (lock_inv s s' t _ _ HI Ht Hstep); try reflexivity.
    intros Hm. apply (inv_idle s HI Hm).
  - (* C_push *)
    injection Hstep as <-.
    assert (Hm : m s = Some t) by (apply Hlk; reflexivity).
    assert (Hnw : worker s <> Some t).
    { intros H. apply Hdr in H. discriminate. }
    eapply (move_inv s _ t _ C_test HI Ht); simpl; try reflexivity.
    + split; [split; auto |]. split; [exact Hdr |].
      split; [destruct (q s); discriminate |].
      rewrite length_app. simpl. destruct Hpc as [Hpc1 Hpc2].
      split.
      * intros Hlen. apply Hpc1. destruct (q s); [reflexivity | simpl in Hlen; lia].
      * intros Hw. rewrite (Hpc2 Hw). reflexivity.
    + intros t' x Hne Hx. rewrite Hm.
      apply (other_holder (worker s) _ (q s)); [exact Hne | | reflexivity |].
      * rewrite <- Hm. apply (inv_threads s HI t' x Hx).
      * intros _. eexists. reflexivity.
    + rewrite Hm. discriminate.
    + unfold delivered, undelivered. simpl.
      rewrite (in_flight_insert _ _ _ _ _ Ht).
      rewrite decide_False by exact Hnw.
      rewrite drop_app_le by apply (in_flight_le s HI).
      rewrite app_assoc. f_equal. apply (inv_fifo s HI).
    + apply (inv_m s HI).
    + apply (inv_worker s HI).
    + intros x e' Hx. left. exact Hx.
  - (* C_test *)
    injection Hstep as <-. destruct Hpc as [Hq Hiff].
    destruct (Nat.eqb_spec (length (q s)) 1) as [Hlen | Hlen];
      apply (quiet_inv s t _ _ _ _ HI Ht); try reflexivity; simpl.
    + split; [exact Hlen | apply Hiff, Hlen].
    + split; [exact Hq |]. intros Hw. apply Hlen, Hiff, Hw.
  - (* C_joinable *)
    injection Hstep as <-. destruct Hpc as [Hlen Hw]. rewrite Hw.
    apply (quiet_inv s t _ _ _ _ HI Ht); try reflexivity. simpl. auto.
  - (* C_join *)
    destruct Hpc.
  - (* C_me *)
    injection Hstep as <-.
    apply (quiet_inv s t _ _ _ _ HI Ht); try reflexivity. exact Hpc.
  - (* C_capture *)
    injection Hstep as <-.
    apply (quiet_inv s t _ _ _ _ HI Ht); try reflexivity. exact Hpc.
  - (* C_spawn *)
    destruct Hpc as [Hlen Hw]. rewrite Hw in Hstep. injection Hstep as <-.
    apply (spawn_inv s t _ HI Ht).
  - (* C_temp_dtor *)
    destruct (release s) as [s1 | |] eqn:Hrel; try discriminate.
    injection Hstep as <-.
    destruct (release_shape s s1 Hrel) as (rc & al & ->).
    apply (quiet_inv s t _ _ _ _ HI Ht); try reflexivity. exact Hpc.
  - (* C_me_dtor *)
    destruct (release s) as [s1 | |] eqn:Hrel; try discriminate.
    injection Hstep as <-.
    destruct (release_shape s s1 Hrel) as (rc & al & ->).
    apply (quiet_inv s t _ _ _ _ HI Ht); try reflexivity. exact Hpc.
  - (* C_unlock *)
    eapply (unlock_inv s s' t _ _ HI Ht Hstep); try reflexivity; simpl.
    + intros [_ H]. right. left. exact H.
    + intros [H _] Hq. contradiction.
  - (* C_done *)
    discriminate.
  - (* W_lock *)
    eapply (lock_inv s s' t _ _ HI Ht Hstep); reflexivity.
  - (* W_test *)
    injection Hstep as <-.
    destruct (Nat.ltb_spec 0 (length (q s))) as [Hlen | Hlen];
      apply (quiet_inv s t _ _ _ _ HI Ht); try reflexivity; simpl.
    + destruct (q s); [simpl in Hlen; lia | discriminate].
    + destruct (q s); [reflexivity | simpl in Hlen; lia].
  - (* W_front *)
    destruct (q s) as [| e qs] eqn:Hq; [discriminate |].
    injection Hstep as <-.
    apply (quiet_inv s t _ _ _ _ HI Ht); try reflexivity. simpl.
    rewrite Hq. eauto.
  - (* W_unlock *)
    eapply (unlock_inv s s' t _ _ HI Ht Hstep); try reflexivity; simpl.
    + exact Hpc.
    + intros _. left. reflexivity.
    + intros [q' Hq] Hq'. congruence.
  - (* W_log *)
    injection Hstep as <-. destruct Hpc as [q' Hq].
    assert (Hw : worker s = Some t) by (apply Hdr; reflexivity).
    eapply (move_inv s _ t _ (W_in_log e) HI Ht); simpl; try reflexivity.
    + split; [exact Hlk |]. split; [exact Hdr |]. exists q'. exact Hq.
    + intros t' x _ Hx. apply (inv_threads s HI t' x Hx).
    + apply (inv_idle s HI).
    + unfold delivered, undelivered. simpl.
      rewrite (in_flight_insert _ _ _ _ _ Ht).
      rewrite decide_True by exact Hw. simpl.
      pose proof (inv_fifo s HI) as Hf. unfold delivered, undelivered in Hf.
      rewrite Hw, (in_flight_at _ _ _ Ht) in Hf. simpl in Hf.
      rewrite Hf, Hq, map_app. simpl. rewrite <- app_assoc. reflexivity.
    + apply (inv_m s HI).
    + apply (inv_worker s HI).
    + intros x e' Hx. apply elem_of_app in Hx as [Hx | Hx]; [left; exact Hx |].
      apply list_elem_of_singleton in Hx. injection Hx as -> ->.
      right. split; reflexivity.
  - (* W_in_log *)
    injection Hstep as <-. destruct Hpc as [q' Hq].
    apply (quiet_inv s t _ _ _ _ HI Ht); try reflexivity. simpl.
    rewrite Hq. discriminate.
  - (* W_relock *)
    eapply (lock_inv s s' t _ _ HI Ht Hstep); try reflexivity.
    intros _. exact Hpc.
  - (* W_pop *)
    destruct (q s) as [| e qs] eqn:Hq; [discriminate |].
    injection Hstep as <-.
    assert (Hm : m s = Some t) by (apply Hlk; reflexivity).
    assert (Hw : worker s = Some t) by (apply Hdr; reflexivity).
    eapply (move_inv s _ t _ W_test HI Ht); simpl; try reflexivity.
    + split; [exact Hlk |]. split; [exact Hdr | exact I].
    + intros t' x Hne Hx. rewrite Hm.
      pose proof (inv_threads s HI t' x Hx) as Hold.
      apply (other_holder (worker s) _ (q s)); [exact Hne | | reflexivity |].
      * rewrite <- Hm. exact Hold.
      * intros Hd. destruct Hold as (_ & Hd' & _). apply Hd' in Hd. congruence.
    + rewrite Hm. discriminate.
    + unfold delivered, undelivered. simpl.
      rewrite (in_flight_insert _ _ _ _ _ Ht).
      rewrite decide_True by exact Hw. simpl.
      pose proof (inv_fifo s HI) as Hf. unfold delivered, undelivered in Hf.
      rewrite Hw, (in_flight_at _ _ _ Ht), Hq in Hf. simpl in Hf. exact Hf.
    + apply (inv_m s HI).
    + apply (inv_worker s HI).
    + intros x e' Hx. left. exact Hx.
  - (* W_detach *)
    destruct (worker s) as [w |] eqn:Hw; [| discriminate].
    injection Hstep as <-.
    assert (Hm : m s = Some t) by (apply Hlk; reflexivity).
    assert (Hwt : w = t).
    { destruct Hdr as [Hdr _]. specialize (Hdr eq_refl). congruence. }
    subst w.
    eapply (move_inv s _ t _ W_unlock_end HI Ht); simpl; try reflexivity.
    + split; [exact Hlk |]. split; [split; discriminate |].
      simpl in *. auto.
    + intros t' x Hne Hx. rewrite Hm.
      apply (other_holder (worker s) _ (q s)); [exact Hne | | |].
      * rewrite <- Hm. apply (inv_threads s HI t' x Hx).
      * rewrite Hw. split; [discriminate | congruence].
      * intros _. exists []. rewrite app_nil_r. reflexivity.
    + rewrite Hm. discriminate.
    + unfold delivered, undelivered. simpl.
      pose proof (inv_fifo s HI) as Hf. unfold delivered, undelivered in Hf.
      rewrite Hw, (in_flight_at _ _ _ Ht) in Hf. exact Hf.
    + apply (inv_m s HI).
    + discriminate.
    + intros x e' Hx. left. exact Hx.
  - (* W_unlock_end *)
    eapply (unlock_inv s s' t _ _ HI Ht Hstep); try reflexivity; simpl.
    + intros H. right. right. exact H.
    + intros [_ H] _. exact H.
  - (* W_release *)
    destruct (release s) as [s1 | |] eqn:Hrel; try discriminate.
    injection Hstep as <-.
    destruct (release_shape s s1 Hrel) as (rc & al & ->).
    apply (quiet_inv s t _ _ _ _ HI Ht); reflexivity.
  - (* W_done *)
    discriminate.
Qed.

(** The invariant looks at [q], [m], [worker], [threads], [enq] and
    [out] only. *)
Lemma Inv_same s rc al ex :
  Inv s ->
  Inv (mkState (q s) (m s) (worker s) rc al (threads s) ex (enq s) (out s)).
Proof. intros [H1 H2 H3 H4 H5 H6]. split; assumption. Qed.

Lemma call_inv s e :
  Inv s -> Inv (set_threads (threads s ++ [C_lock e]) s).
Proof.
  intros HI. split; simpl.
  - intros t p Hp. apply lookup_snoc_cases in Hp as [Hp | [-> ->]].
    + apply (inv_threads s HI t p Hp).
    + split; [| split; [| exact I]]; simpl.
      * split; [discriminate |]. intros H. apply (inv_m s HI) in H. lia.
      * split; [discriminate |]. intros H. apply (inv_worker s HI) in H. lia.
  - apply (inv_idle s HI).
  - unfold delivered, undelivered. simpl.
    rewrite in_flight_snoc by apply (inv_worker s HI). apply (inv_fifo s HI).
  - intros t Ht. rewrite length_app. apply (inv_m s HI) in Ht. lia.
  - intros t Ht. rewrite length_app. apply (inv_worker s HI) in Ht. lia.
  - intros t e' Hin. destruct (inv_out s HI t e' Hin) as (p & Hp & Hc).
    exists p. split; [| exact Hc].
    rewrite lookup_app_l by (eapply lookup_lt_Some, Hp). exact Hp.
Qed.

Lemma step_inv ev s s' : Inv s -> step ev s = Ok s' -> Inv s'.
Proof.
  intros HI. destruct ev as [e | t | |]; simpl.
  - destruct (0 <? ext s)%nat; [| discriminate].
    destruct (alive s); [| discriminate].
    intros [= <-]. apply call_inv, HI.
  - destruct (threads s !! t) as [p |] eqn:Ht; [| discriminate].
    destruct (finished p); [discriminate |].
    destruct (alive s); [| discriminate].
    apply (step_pc_inv s s' t p HI Ht).
  - destruct (0 <? ext s)%nat; [| discriminate].
    destruct (alive s); [| discriminate].
    intros [= <-]. apply (Inv_same s _ _ _ HI).
  - destruct (_ && _); [| discriminate].
    destruct (alive s); [| discriminate].
    intros H. apply release_shape in H as (rc & al & ->). simpl.
    apply (Inv_same s _ _ _ HI).
Qed.

Lemma exec_inv tr : forall s s', Inv s -> exec tr s = Some s' -> Inv s'.
Proof.
  induction tr as [| ev tr IH]; intros s s' HI; simpl.
  - intros [= <-]. exact HI.
  - destruct (step ev s) as [s1 | |] eqn:Hs; [| | discriminate].
    + apply IH. apply (step_inv ev s s1 HI Hs).
    + apply IH, HI.
Qed.

Lemma reachable_inv tr n s : exec tr (init n) = Some s -> Inv s.
Proof. apply exec_inv, Inv_init. Qed.

(** *** Delivery order and the single worker *)

(** C1: in every state the AsyncLogger reaches, under any schedule and
    any number of callers, the records handed to the downstream sink are,
    in order, a prefix of the records enqueued, and what remains to be
    handed over is exactly the queue, less its head while that head is
    being delivered; once no worker is attached and the mutex is free,
    the queue is empty and every enqueued record has been delivered, in
    the order of the enqueueing, none skipped. *)
Theorem async_fifo (tr : list event) (n : nat) (s : state)
    (Hrun : exec tr (init n) = Some s) :
  enq s = delivered s ++ undelivered s
  /\ (undelivered s = q s \/ undelivered s = tail (q s))
  /\ (worker s = None -> m s = None -> q s = [] /\ delivered s = enq s).
Proof.
  pose proof (reachable_inv tr n s Hrun) as HI.
  split; [apply (inv_fifo s HI) |]. split.
  - unfold undelivered, in_flight.
    destruct (worker s) as [w |]; [| left; reflexivity].
    destruct (threads s !! w) as [p |]; [| left; reflexivity].
    destruct (delivered_head p); [right | left; reflexivity].
    destruct (q s); reflexivity.
  - intros Hw Hm. pose proof (inv_idle s HI Hm) as [_ Hq].
    specialize (Hq Hw). split; [exact Hq |].
    pose proof (inv_fifo s HI) as Hf. unfold undelivered in Hf.
    rewrite Hq, drop_nil, app_nil_r in Hf. congruence.
Qed.

Lemma async_fifo_witness :
  exists s, exec (three_calls ++ steps 1 30) (init 1) = Some s
            /\ delivered s = [rec 1; rec 2; rec 3]
            /\ enq s = delivered s ++ undelivered s.
Proof.
  eexists. split; [vm_compute; reflexivity |].
  split; [vm_compute; reflexivity |].
  refine (proj1 (async_fifo (three_calls ++ steps 1 30) 1 _ _)).
  vm_compute. reflexivity.
Defined.

Lemma draining_is_worker s w p :
  Inv s -> threads s !! w = Some p -> draining p = true -> worker s = Some w.
Proof. intros HI Hp Hd. apply (inv_threads s HI w p Hp), Hd. Qed.

Lemma holder_is_owner s t p :
  Inv s -> threads s !! t = Some p -> holds_lock p = true -> m s = Some t.
Proof. intros HI Hp Hl. apply (inv_threads s HI t p Hp), Hl. Qed.

(** C2: in every reachable state at most one worker drains, at most one
    thread is inside the downstream [log], and at most one thread is in a
    critical section; a thread is about to start a worker only while it
    owns the mutex with exactly one record in the queue and no worker
    draining, and the statement that starts one is that one; a worker
    that has left its loop owns the mutex and has seen the queue
    empty. *)
Theorem single_worker (tr : list event) (n : nat) (s : state)
    (Hrun : exec tr (init n) = Some s) :
  (forall w1 w2 p1 p2,
      threads s !! w1 = Some p1 -> threads s !! w2 = Some p2 ->
      draining p1 = true -> draining p2 = true -> w1 = w2)
  /\ (forall w1 w2 p1 p2,
        threads s !! w1 = Some p1 -> threads s !! w2 = Some p2 ->
        delivering p1 = true -> delivering p2 = true -> w1 = w2)
  /\ (forall t1 t2 p1 p2,
        threads s !! t1 = Some p1 -> threads s !! t2 = Some p2 ->
        holds_lock p1 = true -> holds_lock p2 = true -> t1 = t2)
  /\ (forall t, threads s !! t = Some C_spawn ->
        length (q s) = 1%nat /\ m s = Some t
        /\ forall w p, threads s !! w = Some p -> draining p = false)
  /\ (forall ev s' w,
        step ev s = Ok s' -> threads s !! w = None ->
        threads s' !! w = Some W_lock ->
        exists t, ev = Step t /\ threads s !! t = Some C_spawn
                  /\ length (q s') = 1%nat /\ worker s' = Some w)
  /\ (forall w p, threads s !! w = Some p ->
        p = W_detach \/ p = W_unlock_end -> q s = [] /\ m s = Some w).
Proof.
  pose proof (reachable_inv tr n s Hrun) as HI.
  assert (Hone : forall w1 w2 p1 p2,
      threads s !! w1 = Some p1 -> threads s !! w2 = Some p2 ->
      draining p1 = true -> draining p2 = true -> w1 = w2).
  { intros w1 w2 p1 p2 H1 H2 D1 D2.
    pose proof (draining_is_worker s w1 p1 HI H1 D1).
    pose proof (draining_is_worker s w2 p2 HI H2 D2). congruence. }
  split; [exact Hone |]. split; [| split; [| split; [| split]]].
  - intros w1 w2 p1 p2 H1 H2 D1 D2. apply (Hone w1 w2 p1 p2 H1 H2).
    + destruct p1; try discriminate; reflexivity.
    + destruct p2; try discriminate; reflexivity.
  - intros t1 t2 p1 p2 H1 H2 L1 L2.
    pose proof (holder_is_owner s t1 p1 HI H1 L1).
    pose proof (holder_is_owner s t2 p2 HI H2 L2). congruence.
  - intros t Ht. pose proof (inv_threads s HI t _ Ht) as (Hl & _ & Hlen & Hw).
    split; [exact Hlen |]. split; [apply Hl; reflexivity |].
    intros w p Hp. destruct (draining p) eqn:Hd; [| reflexivity].
    pose proof (draining_is_worker s w p HI Hp Hd). congruence.
  - intros ev s' w Hstep Hnone Hnew.
    apply lookup_ge_None in Hnone.
    destruct ev as [e | t | |]; simpl in Hstep.
    + destruct (0 <? ext s)%nat; [| discriminate].
      destruct (alive s); [| discriminate]. injection Hstep as <-.
      simpl in Hnew. apply lookup_snoc_cases in Hnew as [Hnew | [_ Hnew]].
      * apply lookup_lt_Some in Hnew. lia.
      * discriminate.
    + destruct (threads s !! t) as [p |] eqn:Ht; [| discriminate].
      destruct (finished p); [discriminate |].
      destruct (alive s); [| discriminate].
      assert (Hkeep : forall s1 p1, threads s1 = <[t := p1]> (threads s) ->
                threads s1 !! w = Some W_lock -> False).
      { intros s1 p1 Hths Hw. rewrite Hths in Hw.
        apply lookup_lt_Some in Hw. rewrite length_insert in Hw. lia. }
      pose proof (inv_threads s HI t p Ht) as (_ & _ & Hpc).
      destruct p; simpl in Hstep; try discriminate;
        unfold lock, unlock, then_pc in Hstep;
        repeat match type of Hstep with
          | context [match ?x with _ => _ end] =>
              destruct x eqn:?; try discriminate
          | context [if ?x then _ else _] =>
              destruct x eqn:?; try discriminate
          end;
        try (injection Hstep as <-);
        try (exfalso; eapply Hkeep; [| exact Hnew]; reflexivity);
        try (match goal with
             | H : release _ = Ok _ |- _ =>
                 apply release_shape in H as (? & ? & ->)
             end; exfalso; eapply Hkeep; [| exact Hnew]; reflexivity).
      exists t. split; [reflexivity |]. split; [exact Ht |].
      simpl in Hnew |- *. destruct Hpc as [Hlen _]. split; [exact Hlen |].
      apply lookup_snoc_cases in Hnew as [Hnew | [-> _]].
      * apply lookup_lt_Some in Hnew. rewrite length_insert in Hnew. lia.
      * rewrite length_insert. reflexivity.
    + destruct (0 <? ext s)%nat; [| discriminate].
      destruct (alive s); [| discriminate]. injection Hstep as <-.
      simpl in Hnew. apply lookup_lt_Some in Hnew. lia.
    + destruct (_ && _); [| discriminate].
      destruct (alive s); [| discriminate].
      apply release_shape in Hstep as (rc & al & ->). simpl in Hnew.
      apply lookup_lt_Some in Hnew. lia.
  - intros w p Hp Hcase.
    pose proof (inv_threads s HI w p Hp) as (Hl & _ & Hpc).
    destruct Hcase as [-> | ->]; simpl in Hpc.
    + split; [exact Hpc | apply Hl; reflexivity].
    + split; [apply Hpc | apply Hl; reflexivity].
Qed.

Lemma single_worker_witness :
  exists s, exec (three_calls ++ steps 1 5) (init 1) = Some s
            /\ threads s !! 1%nat = Some (W_in_log (rec 1))
            /\ forall w p, threads s !! w = Some p -> delivering p = true ->
                           w = 1%nat.
Proof.
  eexists. split; [vm_compute; reflexivity |].
  split; [vm_compute; reflexivity |].
  intros w p Hp Hd.
  refine (proj1 (proj2 (single_worker (three_calls ++ steps 1 5) 1 _ _))
            w 1%nat p (W_in_log (rec 1)) Hp _ Hd eq_refl);
    vm_compute; reflexivity.
Defined.

(** *** The reference count *)

Lemma total_snoc f ths p : total f (ths ++ [p]) = (total f ths + f p)%nat.
Proof.
  induction ths as [| x ths IH]; simpl; [lia |]. rewrite IH. lia.
Qed.

Lemma total_insert f ths t p p' :
  ths !! t = Some p ->
  (total f (<[t := p']> ths) + f p = total f ths + f p')%nat.
Proof.
  revert t. induction ths as [| x ths IH]; intros t Ht; [discriminate |].
  destruct t as [| t]; simpl in *.
  - injection Ht as ->. lia.
  - specialize (IH t Ht). lia.
Qed.

Lemma total_ge f ths t p : ths !! t = Some p -> (f p <= total f ths)%nat.
Proof.
  revert t. induction ths as [| x ths IH]; intros t Ht; [discriminate |].
  destruct t as [| t]; simpl in *.
  - injection Ht as ->. lia.
  - specialize (IH t Ht). lia.
Qed.

Lemma total_ge2 f ths t1 t2 p1 p2 :
  t1 <> t2 -> ths !! t1 = Some p1 -> ths !! t2 = Some p2 ->
  (f p1 + f p2 <= total f ths)%nat.
Proof.
  revert t1 t2. induction ths as [| x ths IH]; intros t1 t2 Hne H1 H2;
    [discriminate |].
  destruct t1 as [| t1], t2 as [| t2]; simpl in *; try congruence.
  - injection H1 as ->. pose proof (total_ge f ths t2 p2 H2). lia.
  - injection H2 as ->. pose proof (total_ge f ths t1 p1 H1). lia.
  - assert (t1 <> t2) by congruence. specialize (IH t1 t2 H H1 H2). lia.
Qed.

Lemma existsb_lookup (f : pc -> bool) ths t p :
  ths !! t = Some p -> f p = true -> existsb f ths = true.
Proof.
  intros Ht Hf. apply existsb_exists. exists p. split; [| exact Hf].
  apply list_elem_of_In, list_elem_of_lookup. eauto.
Qed.

Lemma existsb_insert (f : pc -> bool) ths t p p' :
  ths !! t = Some p -> (f p' = true -> f p = true) ->
  existsb f (<[t := p']> ths) = true -> existsb f ths = true.
Proof.
  intros Ht Himp H. apply existsb_exists in H as (x & Hin & Hx).
  apply list_elem_of_In, list_elem_of_lookup in Hin as [i Hi].
  apply lookup_insert_cases in Hi as [[-> ->] | [_ Hi]].
  - eapply existsb_lookup; eauto.
  - eapply existsb_lookup; eauto.
Qed.

(** The count is the number of handles; while there is a handle the
    object is alive; a caller inside [log] came through a handle of the
    program. *)
Record RInv (s : state) : Prop := mkRInv {
  rinv_count : refcount s = Z.of_nat (handles s);
  rinv_alive : (0 < handles s)%nat -> alive s = true;
  rinv_call : existsb in_call (threads s) = true -> (0 < ext s)%nat
}.

Lemma RInv_init n : RInv (init n).
Proof.
  split; simpl.
  - unfold handles. simpl. f_equal. unfold closures, locals. simpl. lia.
  - reflexivity.
  - discriminate.
Qed.

(** A thread that is not finished keeps the object alive. *)
Lemma unfinished_alive s t p :
  RInv s -> threads s !! t = Some p -> finished p = false ->
  (0 < handles s)%nat.
Proof.
  intros HR Ht Hf. unfold handles.
  destruct (is_caller p) eqn:Hc.
  - assert (Hin : in_call p = true) by (unfold in_call; rewrite Hc, Hf; reflexivity).
    pose proof (rinv_call s HR (existsb_lookup _ _ _ _ Ht Hin)). lia.
  - pose proof (total_ge closure_refs (threads s) t p Ht) as Hge.
    assert (H1 : closure_refs p = 1%nat)
      by (unfold closure_refs, holds_closure; rewrite Hc, Hf; reflexivity).
    unfold closures. lia.
Qed.

(** The state after the pointer of a handle has been forgotten, before
    the count is decremented. *)
Definition handles_after_release (s : state) : Prop :=
  refcount s = Z.of_nat (handles s) + 1
  /\ (existsb in_call (threads s) = true -> (0 < ext s)%nat).

Lemma release_rinv s s' :
  handles_after_release s -> alive s = true ->
  Z.of_nat (handles s) < INT_MAX ->
  release s = Ok s' ->
  RInv s' /\ handles s' = handles s
  /\ alive s' = negb (handles s =? 0)%nat.
Proof.
  intros [Hrc Hcall] Hal Hb. unfold release.
  rewrite to_int_id by (unfold INT_MIN, INT_MAX in *; lia).
  destruct (Z.eqb_spec (refcount s - 1) 0) as [Hz | Hnz].
  - destruct (worker s), (m s); try discriminate. intros [= <-].
    assert (Hh : handles s = 0%nat) by lia.
    split; [| split; [reflexivity |]].
    + split; simpl; unfold handles in *; simpl in *; try lia. exact Hcall.
    + simpl. rewrite Hh. reflexivity.
  - intros [= <-]. split; [| split; [reflexivity |]].
    + split; simpl; unfold handles in *; simpl in *; try lia; auto.
    + simpl. rewrite Hal. destruct (Nat.eqb_spec (handles s) 0); [lia | reflexivity].
Qed.

Lemma incref_count s :
  refcount s = Z.of_nat (handles s) -> Z.of_nat (handles s) < INT_MAX ->
  refcount (incref s) = Z.of_nat (handles s) + 1.
Proof.
  intros Hrc Hb. simpl. rewrite Hrc.
  apply to_int_id. unfold INT_MIN, INT_MAX in *. lia.
Qed.

Lemma handles_insert s s' t p p' :
  threads s !! t = Some p ->
  threads s' = <[t := p']> (threads s) -> ext s' = ext s ->
  (handles s' + closure_refs p + local_refs p
   = handles s + closure_refs p' + local_refs p')%nat.
Proof.
  intros Ht Hths Hext. unfold handles, closures, locals.
  rewrite Hths, Hext.
  pose proof (total_insert closure_refs _ _ _ p' Ht).
  pose proof (total_insert local_refs _ _ _ p' Ht). lia.
Qed.

(** A statement of thread [t] that moves it from [p] to [p'] and
    adjusts the count by the handles it constructs. *)
Lemma rinv_set_pc s s' t p p' :
  RInv s -> alive s = true -> threads s !! t = Some p ->
  threads s' = <[t := p']> (threads s) ->
  finished p = false -> is_caller p' = is_caller p ->
  ext s' = ext s -> alive s' = true ->
  refcount s' + Z.of_nat (closure_refs p + local_refs p)
  = refcount s + Z.of_nat (closure_refs p' + local_refs p') ->
  RInv s'
  /\ (handles s' + closure_refs p + local_refs p
      = handles s + closure_refs p' + local_refs p')%nat.
Proof.
  intros HR Hal Ht Hths Hf Hc Hext Hal' Hrc.
  pose proof (handles_insert s s' t p p' Ht Hths Hext) as Hh.
  split; [| exact Hh]. split.
  - pose proof (rinv_count s HR). lia.
  - intros _. exact Hal'.
  - rewrite Hths, Hext. intros H. apply (rinv_call s HR).
    apply (existsb_insert _ _ _ _ _ Ht) in H; [exact H |].
    unfold in_call. rewrite Hc, Hf. destruct (is_caller p); simpl; auto.
Qed.

Lemma release_set_pc s t p' :
  then_pc t p' (release s) = release (set_pc t p' s).
Proof.
  unfold release, then_pc. simpl.
  destruct (to_int (refcount s - 1) =? 0); [| reflexivity].
  destruct (worker s), (m s); reflexivity.
Qed.

(** A statement that destroys a handle held by thread [t]. *)
Lemma rinv_release_pc s s' t p p' :
  RInv s -> alive s = true -> Z.of_nat (handles s) <= INT_MAX ->
  threads s !! t = Some p ->
  finished p = false -> is_caller p' = is_caller p ->
  (closure_refs p + local_refs p = S (closure_refs p' + local_refs p'))%nat ->
  then_pc t p' (release s) = Ok s' ->
  RInv s' /\ S (handles s') = handles s
  /\ alive s' = negb (handles s' =? 0)%nat.
Proof.
  intros HR Hal Hb Ht Hf Hc Hrefs. rewrite release_set_pc. intros Hrel.
  pose proof (handles_insert s (set_pc t p' s) t p p' Ht eq_refl eq_refl) as Hh.
  assert (Hafter : handles_after_release (set_pc t p' s)).
  { split.
    - simpl. rewrite (rinv_count s HR). lia.
    - simpl. intros H. apply (rinv_call s HR).
      apply (existsb_insert _ _ _ _ _ Ht) in H; [exact H |].
      unfold in_call. rewrite Hc, Hf. destruct (is_caller p); simpl; auto. }
  destruct (release_rinv _ _ Hafter Hal ltac:(lia) Hrel) as (HR' & Hh' & Hal').
  split; [exact HR' |]. split; [lia |]. rewrite Hh'. exact Hal'.
Qed.

Lemma rinv_same s s' :
  RInv s -> threads s' = threads s -> ext s' = ext s ->
  refcount s' = refcount s -> alive s' = alive s ->
  RInv s' /\ handles s' = handles s.
Proof.
  intros [H1 H2 H3] Hths Hext Hrc Hal.
  assert (Hh : handles s' = handles s)
    by (unfold handles; rewrite Hths, Hext; reflexivity).
  split; [| exact Hh].
  split; rewrite ?Hh, ?Hrc, ?Hal, ?Hths, ?Hext; assumption.
Qed.

Lemma rinv_set_pc_le s s' t p p' :
  RInv s -> alive s = true -> threads s !! t = Some p ->
  finished p = false ->
  threads s' = <[t := p']> (threads s) ->
  is_caller p' = is_caller p ->
  ext s' = ext s -> alive s' = true ->
  refcount s' + Z.of_nat (closure_refs p + local_refs p)
  = refcount s + Z.of_nat (closure_refs p' + local_refs p') ->
  (closure_refs p' + local_refs p' <= S (closure_refs p + local_refs p))%nat ->
  (closure_refs p + local_refs p <= closure_refs p' + local_refs p')%nat ->
  RInv s' /\ (handles s' <= S (handles s))%nat
  /\ ((handles s <= handles s')%nat
      \/ alive s' = negb (handles s' =? 0)%nat).
Proof.
  intros HR Hal Ht Hf Hths Hc Hext Hal' Hrc Hle Hge.
  destruct (rinv_set_pc s s' t p p' HR Hal Ht Hths Hf Hc Hext Hal' Hrc)
    as [HR' Hh].
  split; [exact HR' |]. split; [lia | left; lia].
Qed.

(** Every statement keeps the count in step with the handles, as long
    as the count does not overflow. *)
Lemma step_pc_rinv s s' t p :
  RInv s -> alive s = true -> Z.of_nat (handles s) < INT_MAX ->
  threads s !! t = Some p -> finished p = false ->
  step_pc t p s = Ok s' ->
  RInv s' /\ (handles s' <= S (handles s))%nat
  /\ ((handles s <= handles s')%nat
      \/ alive s' = negb (handles s' =? 0)%nat).
Proof.
  intros HR Hal Hb Ht Hf Hstep.
  pose proof (rinv_count s HR) as Hrc.
  assert (Hinc : to_int (refcount s + 1) = refcount s + 1).
  { apply to_int_id. unfold INT_MIN, INT_MAX in *. lia. }
  assert (Hrel : forall p', is_caller p' = is_caller p ->
            (closure_refs p + local_refs p
             = S (closure_refs p' + local_refs p'))%nat ->
            then_pc t p' (release s) = Ok s' ->
            RInv s' /\ (handles s' <= S (handles s))%nat
            /\ ((handles s <= handles s')%nat
                \/ alive s' = negb (handles s' =? 0)%nat)).
  { intros p' Hc Hrefs Hst.
    destruct (rinv_release_pc s s' t p p' HR Hal ltac:(lia) Ht Hf Hc Hrefs Hst)
      as (HR' & Hh & Hal').
    split; [exact HR' |]. split; [lia | right; exact Hal']. }
  destruct p; cbn [step_pc] in Hstep; try discriminate;
    try (refine (Hrel _ _ _ Hstep); reflexivity);
    clear Hrel;
    unfold lock, unlock in Hstep;
    repeat match type of Hstep with
      | context [match ?x with _ => _ end] =>
          destruct x eqn:?; try discriminate
      | context [if ?x then _ else _] =>
          destruct x eqn:?; try discriminate
      end;
    injection Hstep as <-;
    try (eapply (rinv_set_pc_le s _ t _ _ HR Hal Ht Hf);
         [reflexivity | reflexivity | reflexivity | exact Hal
         | simpl; rewrite ?Hinc; simpl; lia
         | simpl; lia | simpl; lia]).
  (* C_spawn *)
  assert (Hh : handles
                 (set_worker (Some (length (threads s)))
                    (set_threads (<[t := C_temp_dtor]> (threads s) ++ [W_lock])
                       (incref s)))
               = S (handles s)).
  { unfold handles, closures, locals. simpl. rewrite !total_snoc.
    pose proof (total_insert closure_refs _ _ _ C_temp_dtor Ht).
    pose proof (total_insert local_refs _ _ _ C_temp_dtor Ht).
    change (closure_refs C_spawn) with 0%nat in *.
    change (closure_refs C_temp_dtor) with 0%nat in *.
    change (closure_refs W_lock) with 1%nat.
    change (local_refs C_spawn) with 2%nat in *.
    change (local_refs C_temp_dtor) with 2%nat in *.
    change (local_refs W_lock) with 0%nat. lia. }
  split; [| split; [lia | left; lia]]. split.
  - rewrite Hh. simpl. rewrite Hinc. lia.
  - intros _. exact Hal.
  - simpl. intros H. apply (rinv_call s HR).
    eapply existsb_lookup; [exact Ht | reflexivity].
Qed.

Lemma step_rinv ev s s' :
  RInv s -> Z.of_nat (handles s) < INT_MAX -> step ev s = Ok s' ->
  RInv s' /\ (handles s' <= S (handles s))%nat
  /\ ((handles s <= handles s')%nat
      \/ alive s' = negb (handles s' =? 0)%nat).
Proof.
  intros HR Hb. pose proof (rinv_count s HR) as Hrc.
  destruct ev as [e | t | |]; simpl.
  - destruct (Nat.ltb_spec 0 (ext s)) as [Hext | Hext]; [| discriminate].
    destruct (alive s) eqn:Hal; [| discriminate]. intros [= <-].
    assert (Hh : handles (set_threads (threads s ++ [C_lock e]) s) = handles s).
    { unfold handles, closures, locals. simpl. rewrite !total_snoc.
      change (closure_refs (C_lock e)) with 0%nat.
      change (local_refs (C_lock e)) with 0%nat. lia. }
    split; [| split; [lia | left; lia]]. split; rewrite ?Hh; simpl; auto.
  - destruct (threads s !! t) as [p |] eqn:Ht; [| discriminate].
    destruct (finished p) eqn:Hf; [discriminate |].
    destruct (alive s) eqn:Hal; [| discriminate].
    apply (step_pc_rinv s s' t p HR Hal Hb Ht Hf).
  - destruct (Nat.ltb_spec 0 (ext s)) as [Hext | Hext]; [| discriminate].
    destruct (alive s) eqn:Hal; [| discriminate]. intros [= <-].
    assert (Hh : handles (set_ext (S (ext s)) (incref s)) = S (handles s))
      by (unfold handles; simpl; lia).
    split; [| split; [lia | left; lia]]. split; rewrite ?Hh; simpl; auto.
    rewrite to_int_id by (unfold INT_MIN, INT_MAX in *; lia). lia.
  - destruct (Nat.ltb_spec 0 (ext s)) as [Hext | Hext]; [| discriminate].
    simpl. destruct (_ || _) eqn:Hguard; [| discriminate].
    destruct (alive s) eqn:Hal; [| discriminate]. intros Hrel.
    assert (Hh : S (handles (set_ext (pred (ext s)) s)) = handles s)
      by (unfold handles; simpl; lia).
    assert (Hafter : handles_after_release (set_ext (pred (ext s)) s)).
    { split; [simpl; lia |]. simpl. intros Hc. rewrite Hc in Hguard.
      simpl in Hguard. rewrite orb_false_r in Hguard.
      apply Nat.ltb_lt in Hguard. lia. }
    destruct (release_rinv _ _ Hafter Hal ltac:(lia) Hrel) as (HR' & Hh' & Hal').
    split; [exact HR' |]. split; [lia |]. right. rewrite Hh'. exact Hal'.
Qed.

(** A thread that drains or is in a critical section holds a handle or
    runs on a handle of the program. *)
Lemma busy_holds px :
  draining px = true \/ holds_lock px = true ->
  (is_caller px = true /\ in_call px = true)
  \/ (is_caller px = false /\ closure_refs px = 1%nat).
Proof.
  intros [H | H]; destruct px; try discriminate; simpl; auto.
Qed.

(** Destroying a handle does not destroy the object under a thread that
    still works on it. *)
Lemma release_no_fault s :
  Inv s -> Z.of_nat (handles s) <= INT_MAX ->
  refcount s = Z.of_nat (handles s) ->
  (forall x px, threads s !! x = Some px ->
     draining px = true \/ holds_lock px = true -> (2 <= handles s)%nat) ->
  release s <> Fault.
Proof.
  intros HI Hb Hrc Hbusy. unfold release.
  rewrite to_int_id by (unfold INT_MIN, INT_MAX in *; lia).
  destruct (Z.eqb_spec (refcount s - 1) 0) as [Hz | Hnz]; [| discriminate].
  destruct (worker s) as [w |] eqn:Hw.
  - exfalso. pose proof (inv_worker s HI w Hw) as Hlt.
    apply lookup_lt_is_Some in Hlt as [pw Hpw].
    pose proof (inv_threads s HI w pw Hpw) as (_ & Hd & _).
    apply Hd in Hw. specialize (Hbusy w pw Hpw (or_introl Hw)). lia.
  - destruct (m s) as [x |] eqn:Hm; [| discriminate].
    exfalso. pose proof (inv_m s HI x Hm) as Hlt.
    apply lookup_lt_is_Some in Hlt as [px Hpx].
    pose proof (inv_threads s HI x px Hpx) as (Hl & _ & _).
    apply Hl in Hm. specialize (Hbusy x px Hpx (or_intror Hm)). lia.
Qed.

Lemma then_pc_no_fault t p o : o <> Fault -> then_pc t p o <> Fault.
Proof. destruct o; simpl; congruence. Qed.

(** No statement runs into undefined behaviour or [std::terminate]. *)
Lemma step_pc_no_fault s t p :
  Inv s -> RInv s -> Z.of_nat (handles s) <= INT_MAX ->
  threads s !! t = Some p -> finished p = false ->
  step_pc t p s <> Fault.
Proof.
  intros HI HR Hb Ht Hf.
  pose proof (inv_threads s HI t p Ht) as (Hl & Hd & Hpc).
  assert (Hown : holds_lock p = true ->
            forall p', unlock t p' s <> Fault).
  { intros H p'. apply Hl in H. unfold unlock. rewrite H.
    rewrite decide_True by reflexivity. discriminate. }
  assert (Hlock : forall p', lock t p' s <> Fault).
  { intros p'. unfold lock. destruct (m s); discriminate. }
  assert (Hrel : (forall x px, threads s !! x = Some px ->
              draining px = true \/ holds_lock px = true ->
              (2 <= handles s)%nat) ->
            forall p', then_pc t p' (release s) <> Fault).
  { intros Hbusy p'. apply then_pc_no_fault.
    apply (release_no_fault s HI Hb (rinv_count s HR) Hbusy). }
  assert (Hcaller : in_call p = true -> (1 <= local_refs p)%nat ->
            forall x px, threads s !! x = Some px ->
              draining px = true \/ holds_lock px = true ->
              (2 <= handles s)%nat).
  { intros Hin Hloc x px _ _.
    pose proof (rinv_call s HR (existsb_lookup _ _ _ _ Ht Hin)).
    pose proof (total_ge local_refs _ _ _ Ht).
    unfold handles, locals. lia. }
  destruct p; simpl in *; try discriminate; auto.
  - destruct Hpc as [_ ->]. discriminate.
  - apply Hrel, Hcaller; [reflexivity | lia].
  - apply Hrel, Hcaller; [reflexivity | lia].
  - destruct (q s); [congruence | discriminate].
  - destruct (q s); [congruence | discriminate].
  - destruct Hd as [Hd _]. rewrite (Hd eq_refl). discriminate.
  - apply Hrel. intros x px Hpx Hbusy.
    assert (Hne : x <> t).
    { intros ->. rewrite Ht in Hpx. injection Hpx as <-.
      destruct Hbusy; discriminate. }
    destruct (busy_holds px Hbusy) as [[_ Hin] | [_ Hclo]].
    + pose proof (rinv_call s HR (existsb_lookup _ _ _ _ Hpx Hin)).
      pose proof (total_ge closure_refs _ _ _ Ht) as Hge.
      change (closure_refs W_release) with 1%nat in Hge.
      unfold handles, closures. lia.
    + pose proof (total_ge2 closure_refs _ _ _ _ _ Hne Hpx Ht) as Hge.
      change (closure_refs W_release) with 1%nat in Hge.
      unfold handles, closures. lia.
Qed.

Lemma step_no_fault ev s :
  Inv s -> RInv s -> Z.of_nat (handles s) <= INT_MAX ->
  step ev s <> Fault.
Proof.
  intros HI HR Hb. destruct ev as [e | t | |]; simpl.
  - destruct (Nat.ltb_spec 0 (ext s)) as [Hext | Hext]; [| discriminate].
    rewrite (rinv_alive s HR) by (unfold handles; lia). discriminate.
  - destruct (threads s !! t) as [p |] eqn:Ht; [| discriminate].
    destruct (finished p) eqn:Hf; [discriminate |].
    rewrite (rinv_alive s HR (unfinished_alive s t p HR Ht Hf)).
    apply (step_pc_no_fault s t p HI HR Hb Ht Hf).
  - destruct (Nat.ltb_spec 0 (ext s)) as [Hext | Hext]; [| discriminate].
    rewrite (rinv_alive s HR) by (unfold handles; lia). discriminate.
  - destruct (Nat.ltb_spec 0 (ext s)) as [Hext | Hext]; [| discriminate].
    simpl. destruct (_ || _) eqn:Hguard; [| discriminate].
    rewrite (rinv_alive s HR) by (unfold handles; lia).
    pose proof (rinv_count s HR) as Hrc.
    unfold release. simpl.
    rewrite to_int_id by (unfold INT_MIN, INT_MAX in *; lia).
    destruct (Z.eqb_spec (refcount s - 1) 0) as [Hz | Hnz]; [| discriminate].
    assert (Hone : handles s = 1%nat) by lia.
    assert (Hbusy : forall x px, threads s !! x = Some px ->
              draining px = true \/ holds_lock px = true -> False).
    { intros x px Hpx Hb'.
      destruct (busy_holds px Hb') as [[_ Hin] | [_ Hclo]].
      - rewrite (existsb_lookup _ _ _ _ Hpx Hin) in Hguard. simpl in Hguard.
        rewrite orb_false_r in Hguard. apply Nat.ltb_lt in Hguard.
        unfold handles in Hone. lia.
      - pose proof (total_ge closure_refs _ _ _ Hpx).
        unfold handles, closures in Hone. lia. }
    destruct (worker s) as [w |] eqn:Hw.
    + exfalso. pose proof (inv_worker s HI w Hw) as Hlt.
      apply lookup_lt_is_Some in Hlt as [pw Hpw].
      pose proof (inv_threads s HI w pw Hpw) as (_ & Hd & _).
      apply Hd in Hw. apply (Hbusy w pw Hpw). left. exact Hw.
    + destruct (m s) as [x |] eqn:Hm; [| discriminate].
      exfalso. pose proof (inv_m s HI x Hm) as Hlt.
      apply lookup_lt_is_Some in Hlt as [px Hpx].
      pose proof (inv_threads s HI x px Hpx) as (Hl & _ & _).
      apply Hl in Hm. apply (Hbusy x px Hpx). right. exact Hm.
Qed.

Lemma step_ok_alive ev s s' : step ev s = Ok s' -> alive s = true.
Proof.
  destruct ev as [e | t | |]; simpl.
  - destruct (0 <? ext s)%nat; [| discriminate].
    destruct (alive s); [reflexivity | discriminate].
  - destruct (threads s !! t); [| discriminate].
    destruct (finished p); [discriminate |].
    destruct (alive s); [reflexivity | discriminate].
  - destruct (0 <? ext s)%nat; [| discriminate].
    destruct (alive s); [reflexivity | discriminate].
  - destruct (_ && _); [| discriminate].
    destruct (alive s); [reflexivity | discriminate].
Qed.

(** Every schedule runs to a state, and that state satisfies the
    invariants, as long as the count cannot overflow. *)
Lemma exec_safe tr : forall s k,
  Inv s -> RInv s -> (handles s <= k)%nat ->
  Z.of_nat (k + length tr) <= INT_MAX ->
  exists s', exec tr s = Some s' /\ Inv s' /\ RInv s'
             /\ (handles s' <= k + length tr)%nat
             /\ ((0 < handles s)%nat \/ alive s = false ->
                 (0 < handles s')%nat \/ alive s' = false).
Proof.
  induction tr as [| ev tr IH]; intros s k HI HR Hk Hb; simpl in *.
  - exists s. split; [reflexivity |]. split; [exact HI |].
    split; [exact HR |]. split; [lia | auto].
  - destruct (step ev s) as [s1 | |] eqn:Hs.
    + destruct (step_rinv ev s s1 HR ltac:(lia) Hs) as (HR1 & Hh1 & Hmono).
      pose proof (step_inv ev s s1 HI Hs) as HI1.
      destruct (IH s1 (S k) HI1 HR1 ltac:(lia) ltac:(lia))
        as (s' & Hrun & HI' & HR' & Hh' & Hd').
      exists s'. split; [exact Hrun |]. split; [exact HI' |].
      split; [exact HR' |]. split; [lia |].
      intros Hd. apply Hd'.
      pose proof (step_ok_alive ev s s1 Hs) as Hal.
      destruct Hmono as [Hle | Hal1].
      * destruct Hd as [Hpos | Hdead]; [left; lia | congruence].
      * rewrite Hal1. destruct (Nat.eqb_spec (handles s1) 0); [right | left];
          [reflexivity | lia].
    + destruct (IH s k HI HR Hk ltac:(lia))
        as (s' & Hrun & HI' & HR' & Hh' & Hd').
      exists s'. split; [exact Hrun |]. split; [exact HI' |].
      split; [exact HR' |]. split; [lia | exact Hd'].
    + exfalso. apply (step_no_fault ev s HI HR ltac:(lia) Hs).
Qed.

(** While the queue is not empty some thread works on the object. *)
Lemma nonempty_busy s :
  Inv s -> q s <> [] ->
  exists x px, threads s !! x = Some px
               /\ (draining px = true \/ holds_lock px = true).
Proof.
  intros HI Hq. destruct (m s) as [x |] eqn:Hm.
  - pose proof (inv_m s HI x Hm) as Hlt.
    apply lookup_lt_is_Some in Hlt as [px Hpx].
    pose proof (inv_threads s HI x px Hpx) as (Hl & _ & _).
    exists x, px. split; [exact Hpx |]. right. apply Hl, Hm.
  - destruct (worker s) as [w |] eqn:Hw.
    + pose proof (inv_worker s HI w Hw) as Hlt.
      apply lookup_lt_is_Some in Hlt as [pw Hpw].
      pose proof (inv_threads s HI w pw Hpw) as (_ & Hd & _).
      exists w, pw. split; [exact Hpw |]. left. apply Hd, Hw.
    + exfalso. apply Hq. apply (inv_idle s HI Hm). exact Hw.
Qed.

Lemma busy_handles s x px :
  RInv s -> threads s !! x = Some px ->
  draining px = true \/ holds_lock px = true ->
  (0 < handles s)%nat.
Proof.
  intros HR Hpx Hbusy.
  apply (unfinished_alive s x px HR Hpx).
  destruct Hbusy as [H | H]; destruct px; try discriminate; reflexivity.
Qed.



(** *** What a call of [log] does on the caller's thread *)

Lemma run_call_step fuel t s p s1 :
  threads s !! t = Some p -> finished p = false -> alive s = true ->
  step_pc t p s = Ok s1 ->
  run_call (S fuel) t s = run_call fuel t s1.
Proof.
  intros Ht Hf Hal Hs. cbn [run_call step]. rewrite Ht, Hf, Hal, Hs.
  destruct p; try reflexivity. discriminate.
Qed.

Lemma run_call_done fuel t s :
  threads s !! t = Some C_done -> run_call (S fuel) t s = Some s.
Proof. intros Ht. cbn [run_call]. rewrite Ht. reflexivity. Qed.

#[local] Arguments run_call : simpl never.
#[local] Arguments to_int : simpl never.

Ltac norm_state :=
  unfold incref, set_pc, set_m, set_q, set_enq, set_out, set_ext,
    set_worker, set_threads, set_refcount, set_alive;
  cbn [q m worker refcount alive threads ext enq out].

(** The queue is not empty: the caller appends and returns. *)
Lemma run_call_append s t e :
  threads s !! t = Some (C_lock e) -> m s = None -> alive s = true ->
  q s <> [] ->
  run_call 12 t s
  = Some (mkState (q s ++ [e]) None (worker s) (refcount s) true
                  (<[t := C_done]> (threads s)) (ext s) (enq s ++ [e])
                  (out s)).
Proof.
  intros Ht Hm Hal Hq. pose proof (lookup_lt_Some _ _ _ Ht) as Hlt.
  destruct s as [qs ms wk rc al ths ex en ou]. simpl in *. subst ms al.
  erewrite run_call_step;
    [| exact Ht | reflexivity | reflexivity | reflexivity].
  norm_state.
  erewrite run_call_step;
    [| cbn [threads]; apply list_lookup_insert_eq, Hlt | reflexivity | reflexivity
     | reflexivity].
  norm_state.
  rewrite list_insert_insert_eq.
  erewrite run_call_step;
    [| cbn [threads]; apply list_lookup_insert_eq, Hlt | reflexivity | reflexivity
     | reflexivity].
  norm_state. rewrite list_insert_insert_eq.
  rewrite length_app. simpl.
  replace (length qs + 1 =? 1)%nat with false
    by (symmetry; apply Nat.eqb_neq; destruct qs; [congruence | simpl; lia]).
  erewrite run_call_step;
    [| cbn [threads]; apply list_lookup_insert_eq, Hlt | reflexivity | reflexivity
     | cbn [step_pc]; unfold unlock; cbn [m];
       rewrite decide_True by reflexivity; reflexivity].
  norm_state. rewrite list_insert_insert_eq.
  apply run_call_done. cbn [threads]. apply list_lookup_insert_eq, Hlt.
Qed.

(** The queue is empty and no worker is attached: the caller appends,
    starts a worker that holds a handle of its own, and returns. *)
Lemma run_call_spawn s t e :
  threads s !! t = Some (C_lock e) -> m s = None -> alive s = true ->
  q s = [] -> worker s = None ->
  0 <= refcount s -> refcount s + 3 <= INT_MAX ->
  run_call 12 t s
  = Some (mkState [e] None (Some (length (threads s))) (refcount s + 1) true
                  (<[t := C_done]> (threads s) ++ [W_lock]) (ext s)
                  (enq s ++ [e]) (out s)).
Proof.
  intros Ht Hm Hal Hq Hw Hrc0 Hrc3.
  pose proof (lookup_lt_Some _ _ _ Ht) as Hlt.
  destruct s as [qs ms wk rc al ths ex en ou]. simpl in *. subst ms al qs wk.
  assert (H1 : to_int (rc + 1) = rc + 1)
    by (apply to_int_id; unfold INT_MIN, INT_MAX in *; lia).
  assert (H2 : to_int (rc + 1 + 1) = rc + 2)
    by (rewrite to_int_id; unfold INT_MIN, INT_MAX in *; lia).
  assert (H3 : to_int (rc + 2 + 1) = rc + 3)
    by (rewrite to_int_id; unfold INT_MIN, INT_MAX in *; lia).
  assert (H4 : to_int (rc + 3 - 1) = rc + 2)
    by (rewrite to_int_id; unfold INT_MIN, INT_MAX in *; lia).
  assert (H5 : to_int (rc + 2 - 1) = rc + 1)
    by (rewrite to_int_id; unfold INT_MIN, INT_MAX in *; lia).
  assert (Hlook : forall p l, (<[t := p]> ths ++ l) !! t = Some p).
  { intros p l. rewrite lookup_app_l by (rewrite length_insert; exact Hlt).
    apply list_lookup_insert_eq, Hlt. }
  (* lock, push_back, the test of the size, joinable *)
  erewrite run_call_step;
    [| exact Ht | reflexivity | reflexivity | reflexivity].
  norm_state.
  erewrite run_call_step;
    [| cbn [threads]; apply list_lookup_insert_eq, Hlt | reflexivity | reflexivity
     | reflexivity].
  norm_state.
  rewrite list_insert_insert_eq.
  erewrite run_call_step;
    [| cbn [threads]; apply list_lookup_insert_eq, Hlt | reflexivity | reflexivity
     | reflexivity].
  norm_state. rewrite list_insert_insert_eq.
  erewrite run_call_step;
    [| cbn [threads]; apply list_lookup_insert_eq, Hlt | reflexivity | reflexivity
     | reflexivity].
  norm_state. rewrite list_insert_insert_eq.
  (* me, the closure, the thread *)
  erewrite run_call_step;
    [| cbn [threads]; apply list_lookup_insert_eq, Hlt | reflexivity | reflexivity
     | reflexivity].
  norm_state.
  rewrite list_insert_insert_eq, H1.
  erewrite run_call_step;
    [| cbn [threads]; apply list_lookup_insert_eq, Hlt | reflexivity | reflexivity
     | reflexivity].
  norm_state.
  rewrite list_insert_insert_eq, H2.
  erewrite run_call_step;
    [| cbn [threads]; apply list_lookup_insert_eq, Hlt | reflexivity | reflexivity
     | reflexivity].
  norm_state.
  rewrite list_insert_insert_eq, H3, length_insert.
  (* the temporary closure and me are destroyed *)
  erewrite run_call_step;
    [| cbn [threads]; apply Hlook | reflexivity | reflexivity
     | cbn [step_pc]; unfold release; cbn [refcount worker m]; rewrite H4;
       replace (rc + 2 =? 0) with false by (symmetry; apply Z.eqb_neq; lia);
       reflexivity].
  norm_state.
  rewrite insert_app_l by (rewrite length_insert; exact Hlt).
  rewrite list_insert_insert_eq.
  erewrite run_call_step;
    [| cbn [threads]; apply Hlook | reflexivity | reflexivity
     | cbn [step_pc]; unfold release; cbn [refcount worker m]; rewrite H5;
       replace (rc + 1 =? 0) with false by (symmetry; apply Z.eqb_neq; lia);
       reflexivity].
  norm_state.
  rewrite insert_app_l by (rewrite length_insert; exact Hlt).
  rewrite list_insert_insert_eq.
  (* unlock *)
  erewrite run_call_step;
    [| cbn [threads]; apply Hlook | reflexivity | reflexivity
     | cbn [step_pc]; unfold unlock; cbn [m];
       rewrite decide_True by reflexivity; reflexivity].
  norm_state.
  rewrite insert_app_l by (rewrite length_insert; exact Hlt).
  rewrite list_insert_insert_eq.
  apply run_call_done. cbn [threads]. apply Hlook.
Qed.

Lemma reachable_safe tr n s :
  exec tr (init n) = Some s -> Z.of_nat (n + length tr) <= INT_MAX ->
  Inv s /\ RInv s /\ (handles s <= n + length tr)%nat.
Proof.
  intros Hrun Hb.
  assert (Hh0 : handles (init n) = n)
    by (unfold handles, closures, locals; simpl; lia).
  destruct (exec_safe tr (init n) n (Inv_init n) (RInv_init n)
              ltac:(lia) Hb) as (s' & Hrun' & HI & HR & Hh & _).
  rewrite Hrun in Hrun'. injection Hrun' as <-. auto.
Qed.

Lemma release_not_blocked s : release s <> Blocked.
Proof.
  unfold release. destruct (_ =? _); [| discriminate].
  destruct (worker s), (m s); discriminate.
Qed.

(** A caller waits for the mutex and for nothing else. *)
Lemma caller_blocks_on_lock_only s t p :
  Inv s -> RInv s -> Z.of_nat (handles s) <= INT_MAX ->
  threads s !! t = Some p -> in_call p = true ->
  (exists s1, step (Step t) s = Ok s1)
  \/ (exists e, p = C_lock e /\ m s <> None).
Proof.
  intros HI HR Hb Ht Hin.
  assert (Hf : finished p = false) by (destruct p; try discriminate; reflexivity).
  pose proof (step_pc_no_fault s t p HI HR Hb Ht Hf) as Hnf.
  pose proof (inv_threads s HI t p Ht) as (_ & _ & Hpc).
  cbn [step]. rewrite Ht, Hf.
  rewrite (rinv_alive s HR (unfinished_alive s t p HR Ht Hf)).
  destruct (step_pc t p s) as [s1 | |] eqn:Hs; [left; eauto | | congruence].
  right. destruct p; try discriminate; simpl in Hs, Hpc.
  - exists e. split; [reflexivity |]. unfold lock in Hs.
    destruct (m s); [discriminate | discriminate].
  - destruct Hpc.
  - destruct (worker s); discriminate.
  - pose proof (release_not_blocked s). unfold then_pc in Hs.
    destruct (release s); congruence.
  - pose proof (release_not_blocked s). unfold then_pc in Hs.
    destruct (release s); congruence.
  - unfold unlock in Hs. destruct (m s); [case_decide |]; discriminate.
Qed.

Ltac owner_moves :=
  eexists; split; [reflexivity |]; norm_state;
  split; [reflexivity |];
  split; [solve [auto] |];
  right; eexists; split; [solve [auto] |];
  split; [reflexivity | cbn; lia].

Ltac owner_frees :=
  eexists; split; [reflexivity |]; norm_state;
  split; [reflexivity |];
  split; [solve [auto] |];
  left; reflexivity.

(** One statement of the thread that owns the mutex: it is executed, it
    is not a downstream call, it leaves the other threads where they
    are, and it gives the mutex up or brings the thread closer to doing
    so. *)
Lemma owner_step s o p :
  Inv s -> RInv s -> Z.of_nat (handles s) < INT_MAX ->
  threads s !! o = Some p -> holds_lock p = true ->
  exists s1,
    step (Step o) s = Ok s1 /\ out s1 = out s
    /\ (forall t' p', t' <> o -> threads s !! t' = Some p' ->
          threads s1 !! t' = Some p')
    /\ (m s1 = None
        \/ exists p1, threads s1 !! o = Some p1 /\ holds_lock p1 = true
                      /\ (left_under_lock p1 < left_under_lock p)%nat).
Proof.
  intros HI HR Hb Ht Hh.
  assert (Hf : finished p = false)
    by (destruct p; try discriminate; reflexivity).
  assert (Hal : alive s = true)
    by (apply (rinv_alive s HR), (unfinished_alive s o p HR Ht Hf)).
  pose proof (holder_is_owner s o p HI Ht Hh) as Hm.
  pose proof (lookup_lt_Some _ _ _ Ht) as Hlt.
  pose proof (step_pc_no_fault s o p HI HR ltac:(lia) Ht Hf) as Hnf.
  pose proof (inv_threads s HI o p Ht) as (_ & Hdr & Hpc).
  cbn [step]. rewrite Ht, Hf, Hal.
  assert (Hins : forall p1, <[o := p1]> (threads s) !! o = Some p1)
    by (intros; apply list_lookup_insert_eq, Hlt).
  assert (Hfr : forall p1 t' p', t' <> o -> threads s !! t' = Some p' ->
                  <[o := p1]> (threads s) !! t' = Some p').
  { intros p1 t' p' Hne H. rewrite list_lookup_insert_ne by congruence.
    exact H. }
  pose proof (release_not_blocked s) as Hnb.
  destruct p; try discriminate Hh;
    cbn [step_pc] in *; cbn [pc_ok draining] in Hpc, Hdr.
  - owner_moves.
  - destruct (length (q s) =? 1)%nat; owner_moves.
  - destruct Hpc as [_ ->]. owner_moves.
  - destruct Hpc.
  - owner_moves.
  - owner_moves.
  - destruct Hpc as [_ Hw]. rewrite Hw.
    eexists. split; [reflexivity |]. norm_state.
    split; [reflexivity |]. split.
    + intros t' p' Hne H. apply lookup_app_l_Some, Hfr; assumption.
    + right. eexists. split; [apply lookup_app_l_Some, Hins |].
      split; [reflexivity | cbn; lia].
  - destruct (release s) as [s' | |] eqn:Hrel;
      [| congruence | cbn [then_pc] in Hnf; congruence].
    destruct (release_shape s s' Hrel) as (rc & al & ->).
    cbn [then_pc]. owner_moves.
  - destruct (release s) as [s' | |] eqn:Hrel;
      [| congruence | cbn [then_pc] in Hnf; congruence].
    destruct (release_shape s s' Hrel) as (rc & al & ->).
    cbn [then_pc]. owner_moves.
  - unfold unlock. rewrite Hm, decide_True by reflexivity. owner_frees.
  - destruct (0 <? length (q s))%nat; owner_moves.
  - destruct (q s) as [| e l]; [congruence |]. owner_moves.
  - unfold unlock. rewrite Hm, decide_True by reflexivity. owner_frees.
  - destruct (q s) as [| e l]; [congruence |]. owner_moves.
  - rewrite (proj1 Hdr eq_refl). owner_moves.
  - unfold unlock. rewrite Hm, decide_True by reflexivity. owner_frees.
Qed.

(** The owner of the mutex gives it up within [k] statements of its
    own, none of them a downstream call. *)
Lemma owner_releases k : forall s o p,
  Inv s -> RInv s -> Z.of_nat (handles s + k) < INT_MAX ->
  threads s !! o = Some p -> holds_lock p = true ->
  (left_under_lock p <= k)%nat ->
  exists s',
    run_owner (S k) o s = Some s' /\ m s' = None /\ out s' = out s
    /\ Inv s' /\ RInv s'
    /\ (forall t' p', t' <> o -> threads s !! t' = Some p' ->
          threads s' !! t' = Some p').
Proof.
  induction k as [| k IH]; intros s o p HI HR Hb Ht Hh Hk.
  - destruct p; try discriminate Hh; cbn in Hk; lia.
  - destruct (owner_step s o p HI HR ltac:(lia) Ht Hh)
      as (s1 & Hstep & Hout & Hfr & Hnext).
    pose proof (holder_is_owner s o p HI Ht Hh) as Hm.
    pose proof (step_inv _ _ _ HI Hstep) as HI1.
    destruct (step_rinv _ s s1 HR ltac:(lia) Hstep) as (HR1 & Hh1 & _).
    change (run_owner (S (S k)) o s)
      with (if decide (m s = Some o) then
              match step (Step o) s with
              | Ok s' => run_owner (S k) o s'
              | _ => None
              end
            else Some s).
    rewrite decide_True by exact Hm. rewrite Hstep.
    destruct Hnext as [Hfree | (p1 & Ht1 & Hh1' & Hlt)].
    + exists s1. cbn [run_owner].
      rewrite decide_False by (rewrite Hfree; discriminate). auto 10.
    + destruct (IH s1 o p1 HI1 HR1 ltac:(lia) Ht1 Hh1' ltac:(lia))
        as (s' & Hrun & Hfree & Hout' & HI' & HR' & Hfr').
      exists s'. split; [exact Hrun |]. split; [exact Hfree |].
      split; [congruence |]. split; [exact HI' |]. split; [exact HR' |].
      intros t' p' Hne H. apply Hfr', Hfr; assumption.
Qed.


(** The first call on a new AsyncLogger held by one handle. *)
Definition first_call : state :=
  mkState [] None None 1 true [C_lock (rec 1)] 1 [] [].

Definition first_call_returned : state :=
  mkState [rec 1] None (Some 1%nat) 2 true [C_done; W_lock] 1 [rec 1] [].

(** A second caller arrives while the first owns the mutex. *)
Definition second_call_waits : state :=
  mkState [] (Some 0%nat) None 1 true [C_push (rec 1); C_lock (rec 2)] 1 [] [].



(** *** The join that never happens *)

(** [worker.join()] is never executed: whenever a caller tests
    [worker.joinable()] the previous worker has already detached, so the
    test is false and [log] does not wait for a thread. *)
Theorem join_never_reached (tr : list event) (n : nat) (s : state)
    (Hrun : exec tr (init n) = Some s) :
  (forall t, threads s !! t <> Some C_join)
  /\ (forall t, threads s !! t = Some C_joinable -> worker s = None).
Proof.
  pose proof (reachable_inv tr n s Hrun) as HI. split.
  - intros t Ht. pose proof (inv_threads s HI t _ Ht) as (_ & _ & Hpc).
    exact Hpc.
  - intros t Ht. pose proof (inv_threads s HI t _ Ht) as (_ & _ & Hpc).
    apply Hpc.
Qed.

Lemma join_never_reached_witness :
  exists s, exec (Call (rec 1) :: steps 0 3) (init 1) = Some s
            /\ threads s !! 0%nat = Some C_joinable /\ worker s = None.
Proof.
  destruct (exec (Call (rec 1) :: steps 0 3) (init 1)) as [s |] eqn:Hrun;
    [| vm_compute in Hrun; discriminate].
  exists s. split; [reflexivity |].
  assert (Ht : threads s !! 0%nat = Some C_joinable).
  { vm_compute in Hrun. injection Hrun as <-. reflexivity. }
  split; [exact Ht |].
  apply (proj2 (join_never_reached _ 1 s Hrun) 0%nat Ht).
Defined.

(** *** A worker drains the queue *)

(** The statements of one worker, run without interruption until its
    thread ends (at most [fuel] statements). *)
Fixpoint run_worker (fuel : nat) (w : tid) (s : state) : option state :=
  match fuel with
  | O => None
  | S n =>
      match threads s !! w with
      | Some W_done => Some s
      | _ =>
          match step (Step w) s with
          | Ok s' => run_worker n w s'
          | _ => None
          end
      end
  end.

Lemma run_worker_step fuel w s p s1 :
  threads s !! w = Some p -> finished p = false -> alive s = true ->
  step_pc w p s = Ok s1 ->
  run_worker (S fuel) w s = run_worker fuel w s1.
Proof.
  intros Ht Hf Hal Hs. cbn [run_worker step]. rewrite Ht, Hf, Hal, Hs.
  destruct p; try reflexivity. discriminate.
Qed.

Lemma run_worker_done fuel w s :
  threads s !! w = Some W_done -> run_worker (S fuel) w s = Some s.
Proof. intros Ht. cbn [run_worker]. rewrite Ht. reflexivity. Qed.

#[local] Arguments run_worker : simpl never.

(** The loop, from its test on, with the mutex owned. *)
Lemma drain_loop w ex en : forall qs ths rc ou,
  ths !! w = Some W_test -> 1 <= rc <= INT_MAX ->
  run_worker (7 * length qs + 5) w
    (mkState qs (Some w) (Some w) rc true ths ex en ou)
  = Some (mkState [] None None (rc - 1) (negb (rc - 1 =? 0))
                  (<[w := W_done]> ths) ex en
                  (ou ++ map (fun e => (w, e)) qs)).
Proof.
  induction qs as [| e qs IH]; intros ths rc ou Ht Hrc;
    pose proof (lookup_lt_Some _ _ _ Ht) as Hlt.
  - change (7 * length (@nil Entry) + 5)%nat with 5%nat.
    erewrite run_worker_step;
      [| exact Ht | reflexivity | reflexivity | reflexivity].
    norm_state. cbn [length Nat.ltb Nat.leb].
    erewrite run_worker_step;
      [| cbn [threads]; apply list_lookup_insert_eq, Hlt | reflexivity
       | reflexivity | reflexivity].
    norm_state. rewrite list_insert_insert_eq.
    erewrite run_worker_step;
      [| cbn [threads]; apply list_lookup_insert_eq, Hlt | reflexivity
       | reflexivity
       | cbn [step_pc]; unfold unlock; cbn [m];
         rewrite decide_True by reflexivity; reflexivity].
    norm_state. rewrite list_insert_insert_eq.
    assert (Hto : to_int (rc - 1) = rc - 1)
      by (apply to_int_id; unfold INT_MIN, INT_MAX in *; lia).
    destruct (rc - 1 =? 0) eqn:Hz.
    + erewrite run_worker_step;
        [| cbn [threads]; apply list_lookup_insert_eq, Hlt | reflexivity
         | reflexivity
         | cbn [step_pc]; unfold release; cbn [refcount worker m];
           rewrite Hto, Hz; reflexivity].
      norm_state. rewrite list_insert_insert_eq, app_nil_r.
      apply run_worker_done. cbn [threads]. apply list_lookup_insert_eq, Hlt.
    + erewrite run_worker_step;
        [| cbn [threads]; apply list_lookup_insert_eq, Hlt | reflexivity
         | reflexivity
         | cbn [step_pc]; unfold release; cbn [refcount worker m];
           rewrite Hto, Hz; reflexivity].
      norm_state. rewrite list_insert_insert_eq, app_nil_r.
      apply run_worker_done. cbn [threads]. apply list_lookup_insert_eq, Hlt.
  - replace (7 * length (e :: qs) + 5)%nat
      with (S (S (S (S (S (S (S (7 * length qs + 5))))))))
      by (cbn [length]; lia).
    erewrite run_worker_step;
      [| exact Ht | reflexivity | reflexivity | reflexivity].
    norm_state. cbn [length Nat.ltb Nat.leb].
    erewrite run_worker_step;
      [| cbn [threads]; apply list_lookup_insert_eq, Hlt | reflexivity
       | reflexivity | reflexivity].
    norm_state. rewrite list_insert_insert_eq.
    erewrite run_worker_step;
      [| cbn [threads]; apply list_lookup_insert_eq, Hlt | reflexivity
       | reflexivity
       | cbn [step_pc]; unfold unlock; cbn [m];
         rewrite decide_True by reflexivity; reflexivity].
    norm_state. rewrite list_insert_insert_eq.
    erewrite run_worker_step;
      [| cbn [threads]; apply list_lookup_insert_eq, Hlt | reflexivity
       | reflexivity | reflexivity].
    norm_state. rewrite list_insert_insert_eq.
    erewrite run_worker_step;
      [| cbn [threads]; apply list_lookup_insert_eq, Hlt | reflexivity
       | reflexivity | reflexivity].
    norm_state. rewrite list_insert_insert_eq.
    erewrite run_worker_step;
      [| cbn [threads]; apply list_lookup_insert_eq, Hlt | reflexivity
       | reflexivity | reflexivity].
    norm_state. rewrite list_insert_insert_eq.
    erewrite run_worker_step;
      [| cbn [threads]; apply list_lookup_insert_eq, Hlt | reflexivity
       | reflexivity | reflexivity].
    norm_state. rewrite list_insert_insert_eq.
    rewrite (IH (<[w := W_test]> ths) rc (ou ++ [(w, e)]));
      [| apply list_lookup_insert_eq, Hlt | exact Hrc].
    rewrite list_insert_insert_eq, <- app_assoc. reflexivity.
Qed.



(** *** An AsyncLogger in front of a MemLogger *)

(** Once the AsyncLogger is idle, a MemLogger of capacity [k] that has
    received the downstream calls in their order holds the last [k]
    records that were enqueued (all of them when there are at most
    [k]). *)
Theorem async_into_memlogger (tr : list event) (n : nat) (s : state) (k : Z)
    (Hrun : exec tr (init n) = Some s)
    (Hk : 0 <= k < INT_MAX)
    (Hidle : worker s = None) (Hm : m s = None) :
  Mem.logs k [] (delivered s)
  = Some (drop (length (enq s) - Z.to_nat k) (enq s)).
Proof.
  pose proof (reachable_inv tr n s Hrun) as HI.
  pose proof (inv_fifo s HI) as Hf. unfold undelivered in Hf.
  rewrite (proj2 (inv_idle s HI Hm) Hidle), drop_nil, app_nil_r in Hf.
  rewrite <- Hf.
  apply (MemFacts.logs_drop k (enq s) [] Hk). simpl. lia.
Qed.

(** The scenario of three records and a MemLogger of capacity 2. *)
Lemma async_into_memlogger_witness :
  exists s, exec (three_calls ++ steps 1 30) (init 1) = Some s
            /\ Mem.logs 2 [] (delivered s) = Some [rec 2; rec 3].
Proof.
  destruct (exec (three_calls ++ steps 1 30) (init 1)) as [s |] eqn:Hrun;
    [| vm_compute in Hrun; discriminate].
  exists s. split; [reflexivity |].
  assert (Hk : 0 <= 2 < INT_MAX) by (unfold INT_MAX; lia).
  assert (Hs : worker s = None /\ m s = None /\ enq s = [rec 1; rec 2; rec 3]).
  { vm_compute in Hrun. injection Hrun as <-. auto. }
  destruct Hs as (Hw & Hm & Henq).
  rewrite (async_into_memlogger _ 1 s 2 Hrun Hk Hw Hm), Henq. reflexivity.
Defined.

End AsyncFacts.
